(** * Syndesis data-virtualization helpers (VirtualizationUtils.ts)

    A shallow embedding of the helper functions of
    [modules/data/shared/VirtualizationUtils.ts] together with the
    properties their specification states about them.

    Conventions of the embedding:
    - a JavaScript string is a [string]; [+] on strings is [+:+];
    - [toLowerCase] is the engine's case mapping, a parameter of which
      only the behaviour on ASCII text is assumed;
    - a value that may be [undefined] is an [option];
    - objects that the code shares or mutates (schema nodes, string
      arrays, connections) live in a store and are passed around as
      locations;
    - a call either completes normally, throws a [TypeError] (a property
      read on [undefined]), or, for the one recursive function over a
      store-allocated tree, runs out of fuel. *)

From Stdlib Require Import Ascii String.
From stdpp Require Import gmap strings list.


(** ** Completions *)

Inductive completion (A : Type) : Type :=
| Normal (a : A)
| TypeError
| OutOfFuel.
Arguments Normal {A} a.
Arguments TypeError {A}.
Arguments OutOfFuel {A}.

Definition bind_completion {A B} (c : completion A) (k : A → completion B)
  : completion B :=
  match c with
  | Normal a => k a
  | TypeError => TypeError
  | OutOfFuel => OutOfFuel
  end.

(** Locations of store-allocated objects. *)
Definition loc := nat.

(** ** JavaScript string primitives used by the module *)

Module JsString.

(** [s.split(sep)] for a one-character separator: every occurrence of
    the separator cuts, the empty string gives one empty piece. *)
Fixpoint split (sep : ascii) (s : string) : list string :=
  match s with
  | EmptyString => [EmptyString]
  | String c rest =>
      if Ascii.eqb c sep then EmptyString :: split sep rest
      else match split sep rest with
           | piece :: pieces => String c piece :: pieces
           | [] => [String c EmptyString]
           end
  end.

(** Lowercasing of ASCII text: A-Z go to a-z, every other character
    stays. *)
Definition lower_ascii (c : ascii) : ascii :=
  let n := nat_of_ascii c in
  if ((65 <=? n) && (n <=? 90))%nat then ascii_of_nat (n + 32) else c.

Fixpoint lower_ascii_string (s : string) : string :=
  match s with
  | EmptyString => EmptyString
  | String c rest => String (lower_ascii c) (lower_ascii_string rest)
  end.

(** A string all of whose characters are in the ASCII range. *)
Fixpoint is_ascii (s : string) : bool :=
  match s with
  | EmptyString => true
  | String c rest => (nat_of_ascii c <? 128)%nat && is_ascii rest
  end.

(** [s.toLowerCase()] is the case mapping of the JavaScript engine, which
    also maps letters outside ASCII. The module does not define it, so
    it is taken as given; all that is known of it here is what it does
    on ASCII text. *)
Class CaseMapping : Type := {
  toLowerCase : string → string;
  toLowerCase_ascii :
    ∀ s, is_ascii s = true → toLowerCase s = lower_ascii_string s;
}.

(** The case mapping that leaves every character outside A-Z alone: it
    agrees with every other one on ASCII text. *)
Definition ascii_case_mapping : CaseMapping :=
  {| toLowerCase := lower_ascii_string;
     toLowerCase_ascii := λ s _, eq_refl |}.

(** String conversion of a possibly undefined operand of [+]. *)
Definition to_string (v : option string) : string :=
  match v with
  | Some s => s
  | None => "undefined"
  end.

(** Truthiness of a possibly undefined string: [undefined] and the
    empty string are falsy. *)
Definition truthy (v : option string) : bool :=
  match v with
  | Some s => negb (bool_decide (s = ""))
  | None => false
  end.

(** Text before the first occurrence of [sep] (all of [s] when there
    is none), and text after it (undefined when there is none). *)
Fixpoint before_first (sep : ascii) (s : string) : string :=
  match s with
  | EmptyString => EmptyString
  | String c rest =>
      if Ascii.eqb c sep then EmptyString
      else String c (before_first sep rest)
  end.

Fixpoint after_first (sep : ascii) (s : string) : option string :=
  match s with
  | EmptyString => None
  | String c rest =>
      if Ascii.eqb c sep then Some rest else after_first sep rest
  end.

Fixpoint occurs (sep : ascii) (s : string) : bool :=
  match s with
  | EmptyString => false
  | String c rest => Ascii.eqb c sep || occurs sep rest
  end.

End JsString.

(** ** Records of the models package that the module reads or builds *)

(** Modelled from the spec: the element type of [compositions] is declared
    in the models package, which is not among the sources; the spec only
    says the sequence is empty at creation, so its elements stay opaque. *)
Inductive Composition : Type :=
| OpaqueComposition (payload : string).

Record ProjectedColumn : Type := mkProjectedColumn {
  pc_name : string;
  pc_selected : bool;
  pc_type : string;
}.

Record ViewDefinition : Type := mkViewDefinition {
  compositions : list Composition;
  isComplete : bool;
  keng__description : string;
  projectedColumns : list ProjectedColumn;
  sourcePaths : list string;
  vd_viewName : string;
}.

Record ViewEditorState : Type := mkViewEditorState {
  es_id : string;
  viewDefinition : ViewDefinition;
}.

(** ** Preview SQL *)

Module PreviewSql.
Import JsString.

Definition SCHEMA_MODEL_SUFFIX : string := "schemamodel".

Definition PREVIEW_VDB_NAME : string := "PreviewVdb".

(** [getPreviewVdbName()] *)
Definition getPreviewVdbName : string := PREVIEW_VDB_NAME.

(** [sourcePath.split('/')[0].split('=')[1]] *)
Definition getConnectionName (sourcePath : string)
  : completion (option string) :=
  match split "/" sourcePath !! 0 with
  | Some segment => Normal (split "=" segment !! 1)
  | None => TypeError
  end.

(** [segments[segments.length - 1].split('=')[1]] *)
Definition getNodeName (sourcePath : string) : completion (option string) :=
  let segments := split "/" sourcePath in
  match segments !! (length segments - 1) with
  | Some segment => Normal (split "=" segment !! 1)
  | None => TypeError
  end.

Section WithCaseMapping.
Context {caseMapping : CaseMapping}.

(** [getConnectionName(p).toLowerCase() + SCHEMA_MODEL_SUFFIX + '.' +
    getNodeName(p)]: calling [toLowerCase] on [undefined] throws, an
    undefined node name is converted by [+]. *)
Definition getPreviewTableName (sourcePath : string) : completion string :=
  bind_completion (getConnectionName sourcePath) (λ conn,
    match conn with
    | None => TypeError
    | Some c =>
        bind_completion (getNodeName sourcePath) (λ node,
          Normal (toLowerCase c +:+ SCHEMA_MODEL_SUFFIX +:+ "." +:+
                  to_string node))
    end).

Definition getPreviewSql (viewDefinition : ViewDefinition)
  : completion string :=
  let sourcePath := sourcePaths viewDefinition !! 0 in
  match sourcePath with
  | Some p =>
      if truthy sourcePath then
        bind_completion (getPreviewTableName p) (λ table,
          Normal ("SELECT * FROM " +:+ table +:+ ";"))
      else Normal ""
  | None => Normal ""
  end.

End WithCaseMapping.

(** The first and the last of the [/]-delimited segments of a path. *)
Definition first_segment (sourcePath : string) : string :=
  hd "" (split "/" sourcePath).

Definition last_segment (sourcePath : string) : string :=
  List.last (split "/" sourcePath) "".

(** Following the specification's words: the value of a [key=value]
    segment is what follows its first [=], the segment being split there
    once; the connection name is the value of the first segment and the
    node name the value of the last. *)
Definition spec_segment_value (segment : string) : option string :=
  after_first "=" segment.

Definition spec_connectionName (sourcePath : string) : option string :=
  spec_segment_value (first_segment sourcePath).

Definition spec_nodeName (sourcePath : string) : option string :=
  spec_segment_value (last_segment sourcePath).

End PreviewSql.

(** ** Publishing details *)

Module Publishing.
Import JsString.

Record RestDataService : Type := mkRestDataService {
  publishedState : string;
  publishLogUrl : option string;
}.

Record VirtualizationPublishingDetails : Type := mkPublishingDetails {
  logUrl : option string;
  state : string;
  stepNumber : nat;
  stepText : string;
  stepTotal : nat;
}.

Definition set_step (n : nat) (text : string)
  (d : VirtualizationPublishingDetails) : VirtualizationPublishingDetails :=
  {| logUrl := logUrl d; state := state d;
     stepNumber := n; stepText := text; stepTotal := stepTotal d |}.

Definition set_logUrl (url : option string)
  (d : VirtualizationPublishingDetails) : VirtualizationPublishingDetails :=
  {| logUrl := url; state := state d;
     stepNumber := stepNumber d; stepText := stepText d;
     stepTotal := stepTotal d |}.

Definition getPublishingDetails (virtualization : RestDataService)
  : VirtualizationPublishingDetails :=
  let publishStepDetails :=
    {| logUrl := None; state := publishedState virtualization;
       stepNumber := 0; stepText := ""; stepTotal := 4 |} in
  let publishStepDetails :=
    if bool_decide (publishedState virtualization = "CONFIGURING")
    then set_step 1 "Configuring" publishStepDetails
    else if bool_decide (publishedState virtualization = "BUILDING")
    then set_step 2 "Building" publishStepDetails
    else if bool_decide (publishedState virtualization = "DEPLOYING")
    then set_step 3 "Deploying" publishStepDetails
    else if bool_decide (publishedState virtualization = "RUNNING")
    then set_step 4 "Published" publishStepDetails
    else publishStepDetails in
  if truthy (publishLogUrl virtualization)
  then set_logUrl (publishLogUrl virtualization) publishStepDetails
  else publishStepDetails.

End Publishing.

(** ** Connection annotation *)

Module DvConnections.

Inductive DvConnectionStatus : Type := ACTIVE | INACTIVE.

Definition DvConnectionStatus_value (s : DvConnectionStatus) : string :=
  match s with
  | ACTIVE => "ACTIVE"
  | INACTIVE => "INACTIVE"
  end.

Inductive DvConnectionSelection : Type := SELECTED | NOTSELECTED.

Definition DvConnectionSelection_value (s : DvConnectionSelection) : string :=
  match s with
  | SELECTED => "SELECTED"
  | NOTSELECTED => "NOTSELECTED"
  end.

Record VirtualizationSourceStatus : Type := mkSourceStatus {
  sourceName : string;
  vdbState : string;
  schemaState : string;
}.

(** A connection object; of its many fields the module reads [name] and
    writes [options], a string-keyed object that may be absent. *)
Record Connection : Type := mkConnection {
  conn_name : string;
  options : option (gmap string string);
}.

(** Connections are objects shared with the caller: the store maps the
    location of each to its current contents. A location that is not
    allocated stands for a null or undefined entry. *)
Abbreviation ConnStore := (gmap loc Connection).

Definition connStatus_of
  (virtualizationsSourceStatuses : list VirtualizationSourceStatus)
  (conn : Connection) : DvConnectionStatus :=
  let virtSrcStatus :=
    List.find (λ virtStatus, bool_decide (sourceName virtStatus = conn_name conn))
              virtualizationsSourceStatuses in
  match virtSrcStatus with
  | Some st =>
      if bool_decide (vdbState st = "ACTIVE")
         && bool_decide (schemaState st = "ACTIVE")
      then ACTIVE else INACTIVE
  | None => INACTIVE
  end.

Definition selectionState_of (selectedConn : string) (conn : Connection)
  : DvConnectionSelection :=
  if bool_decide (conn_name conn = selectedConn) then SELECTED else NOTSELECTED.

(** The object literal [{ dvStatus: connStatus, dvSelected: selectionState }]. *)
Definition dv_options (connStatus : DvConnectionStatus)
  (selectionState : DvConnectionSelection) : gmap string string :=
  <["dvSelected" := DvConnectionSelection_value selectionState]>
    (<["dvStatus" := DvConnectionStatus_value connStatus]> ∅).

(** The loop body and the loop: [dvConns] is the array under
    construction, the store holds the connection objects. *)
Fixpoint generateDvConnections_loop (conns : list loc)
  (virtualizationsSourceStatuses : list VirtualizationSourceStatus)
  (selectedConn : string) (dvConns : list loc) (σ : ConnStore)
  : completion (list loc * ConnStore) :=
  match conns with
  | [] => Normal (dvConns, σ)
  | conn :: rest =>
      match σ !! conn with
      | None => TypeError
      | Some c =>
          let connStatus := connStatus_of virtualizationsSourceStatuses c in
          let selectionState := selectionState_of selectedConn c in
          let c' :=
            {| conn_name := conn_name c;
               options := Some (dv_options connStatus selectionState) |} in
          generateDvConnections_loop rest virtualizationsSourceStatuses
            selectedConn (dvConns ++ [conn]) (<[conn := c']> σ)
      end
  end.

Definition generateDvConnections (conns : list loc)
  (virtualizationsSourceStatuses : list VirtualizationSourceStatus)
  (selectedConn : string) (σ : ConnStore)
  : completion (list loc * ConnStore) :=
  generateDvConnections_loop conns virtualizationsSourceStatuses selectedConn
    [] σ.

(** The contents of a connection object once the loop body has run on it. *)
Definition annotated
  (virtualizationsSourceStatuses : list VirtualizationSourceStatus)
  (selectedConn : string) (c : Connection) : Connection :=
  {| conn_name := conn_name c;
     options := Some (dv_options
                        (connStatus_of virtualizationsSourceStatuses c)
                        (selectionState_of selectedConn c)) |}.

(** [getDvConnectionStatus(conn)]: the stored [dvStatus] when [options]
    is there and holds a truthy [dvStatus], else ["INACTIVE"]. *)
Definition getDvConnectionStatus (conn : Connection) : string :=
  let dvState := DvConnectionStatus_value INACTIVE in
  match options conn with
  | Some opts =>
      match opts !! "dvStatus" with
      | Some dvStatus =>
          if JsString.truthy (Some dvStatus) then dvStatus else dvState
      | None => dvState
      end
  | None => dvState
  end.

(** [isDvConnectionSelected(conn)] *)
Definition isDvConnectionSelected (conn : Connection) : bool :=
  let isSelected := false in
  match options conn with
  | Some opts =>
      if JsString.truthy (opts !! "dvSelected")
         && bool_decide (opts !! "dvSelected"
                         = Some (DvConnectionSelection_value SELECTED))
      then true else isSelected
  | None => isSelected
  end.

End DvConnections.

(** ** Schema trees, view infos and the store they live in *)

Module ViewInfos.

(** A schema node object. [children] holds the locations of the child
    objects; an absent [children] array behaves as the empty one. *)
Record SchemaNode : Type := mkSchemaNode {
  name : string;
  connectionName : string;
  path : string;
  queryable : bool;
  children : list loc;
}.

(** A view info refers to its path array and to its source node: both
    are references, not copies. *)
Record ViewInfo : Type := mkViewInfo {
  vi_connectionName : string;
  isUpdate : bool;
  nodePath : loc;
  selected : bool;
  viewName : string;
  viewSourceNode : loc;
}.

(** The store: schema node objects by location (a location outside the
    map stands for a null or undefined node), the string arrays
    allocated so far (a location is an index), and the array passed as
    the out-parameter [viewInfos]. *)
Record Store : Type := mkStore {
  nodes : gmap loc SchemaNode;
  arrays : list (list string);
  viewInfos : list ViewInfo;
}.

Definition M (A : Type) : Type := Store → completion (A * Store).

Definition ret {A} (a : A) : M A := λ σ, Normal (a, σ).

Definition bind {A B} (m : M A) (k : A → M B) : M B :=
  λ σ, match m σ with
       | Normal (a, σ') => k a σ'
       | TypeError => TypeError
       | OutOfFuel => OutOfFuel
       end.

Notation "x <- m ;; k" := (bind m (λ x, k))
  (at level 100, m at next level, right associativity).
Notation "m ;; k" := (bind m (λ _, k))
  (at level 100, right associativity).

Definition out_of_fuel {A} : M A := λ _, OutOfFuel.

(** [const a = []] *)
Definition new_array : M loc :=
  λ σ, Normal (length (arrays σ),
               {| nodes := nodes σ; arrays := arrays σ ++ [[]];
                  viewInfos := viewInfos σ |}).

(** The elements of the array at [r], as [for (const seg of r)] sees them. *)
Definition read_array (r : loc) : M (list string) :=
  λ σ, match arrays σ !! r with
       | Some a => Normal (a, σ)
       | None => TypeError
       end.

(** [r.push(seg)] *)
Definition push (r : loc) (seg : string) : M unit :=
  λ σ, match arrays σ !! r with
       | Some a =>
           Normal (tt, {| nodes := nodes σ;
                          arrays := <[r := a ++ [seg]]> (arrays σ);
                          viewInfos := viewInfos σ |})
       | None => TypeError
       end.

(** [viewInfos.push(view)] *)
Definition push_view (view : ViewInfo) : M unit :=
  λ σ, Normal (tt, {| nodes := nodes σ; arrays := arrays σ;
                      viewInfos := viewInfos σ ++ [view] |}).

Definition get_node (l : loc) : M (option SchemaNode) :=
  λ σ, Normal (nodes σ !! l, σ).

Fixpoint for_each {A} (body : A → M unit) (xs : list A) : M unit :=
  match xs with
  | [] => ret tt
  | x :: rest => body x ;; for_each body rest
  end.

(** [xs.findIndex(p)]: the first index whose element satisfies [p], or -1. *)
Fixpoint findIndex {A} (p : A → bool) (xs : list A) : Z :=
  match xs with
  | [] => (-1)%Z
  | x :: rest =>
      if p x then 0%Z
      else let i := findIndex p rest in
           if bool_decide (i = (-1)%Z) then (-1)%Z else (i + 1)%Z
  end.

(** [generateViewInfos(viewInfos, schemaNode, nodePath, selectedViewNames,
    existingViewNames)]. The out-parameter [viewInfos] is the store
    component of that name; [schemaNode] and [nodePath] are references.
    The schema nodes form a graph in the store, so the recursion is
    bounded by [fuel]; a tree of height [h] needs [h]. *)
Fixpoint generateViewInfos (fuel : nat) (schemaNode : loc) (nodePath : loc)
  (selectedViewNames existingViewNames : list string) : M unit :=
  match fuel with
  | O => out_of_fuel
  | S fuel =>
      node <- get_node schemaNode ;;
      match node with
      | None => ret tt
      | Some schemaNode_ =>
          (* Generate source path from nodePath array *)
          sourcePath <- new_array ;;
          segs <- read_array nodePath ;;
          for_each (λ seg, push sourcePath seg) segs ;;
          (* Creates ViewInfo if the SchemaNode is queryable *)
          (if queryable schemaNode_ then
             let vwName :=
               connectionName schemaNode_ +:+ "_" +:+ name schemaNode_ in
             let selectedState :=
               if bool_decide
                    (findIndex (λ viewName, bool_decide (viewName = vwName))
                               selectedViewNames = (-1)%Z)
               then false else true in
             let hasExistingView :=
               if bool_decide
                    (findIndex (λ viewName, bool_decide (viewName = vwName))
                               existingViewNames = (-1)%Z)
               then false else true in
             push_view {| vi_connectionName := connectionName schemaNode_;
                          isUpdate := hasExistingView;
                          nodePath := sourcePath;
                          selected := selectedState;
                          viewName := vwName;
                          viewSourceNode := schemaNode |}
           else ret tt) ;;
          (* Update path for next level *)
          push sourcePath (name schemaNode_) ;;
          (* Process this nodes children *)
          for_each (λ childNode,
                      generateViewInfos fuel childNode sourcePath
                        selectedViewNames existingViewNames)
                   (children schemaNode_)
      end
  end.

(** What a reader of the result sees in [view.nodePath]. *)
Definition nodePath_contents (σ : Store) (view : ViewInfo)
  : option (list string) :=
  arrays σ !! nodePath view.

(** [generateViewEditorStates]: reads the source node of every view info
    through the store. *)
Fixpoint generateViewEditorStates_loop (h : gmap loc SchemaNode)
  (serviceVdbName : string) (viewInfos : list ViewInfo)
  (editorStates : list ViewEditorState) : completion (list ViewEditorState) :=
  match viewInfos with
  | [] => Normal editorStates
  | viewInfo :: rest =>
      match h !! viewSourceNode viewInfo with
      | None => TypeError
      | Some viewSourceNode_ =>
          let path_ :=
            "connection=" +:+ vi_connectionName viewInfo +:+ "/" +:+
            path viewSourceNode_ in
          let srcPaths := [] ++ [path_] in
          let projCol :=
            {| pc_name := "ALL"; pc_selected := true; pc_type := "ALL" |} in
          let projCols := [] ++ [projCol] in
          let viewDefn :=
            {| compositions := [];
               isComplete := true;
               keng__description := viewName viewInfo +:+ " description";
               projectedColumns := projCols;
               sourcePaths := srcPaths;
               vd_viewName := viewName viewInfo |} in
          let editorState :=
            {| es_id := serviceVdbName +:+ "." +:+ viewName viewInfo;
               viewDefinition := viewDefn |} in
          generateViewEditorStates_loop h serviceVdbName rest
            (editorStates ++ [editorState])
      end
  end.

(** The editor state built for one view info whose source node is [node]. *)
Definition editorState_of (serviceVdbName : string) (viewInfo : ViewInfo)
  (node : SchemaNode) : ViewEditorState :=
  {| es_id := serviceVdbName +:+ "." +:+ viewName viewInfo;
     viewDefinition :=
       {| compositions := [];
          isComplete := true;
          keng__description := viewName viewInfo +:+ " description";
          projectedColumns :=
            [{| pc_name := "ALL"; pc_selected := true; pc_type := "ALL" |}];
          sourcePaths :=
            ["connection=" +:+ vi_connectionName viewInfo +:+ "/" +:+
             path node];
          vd_viewName := viewName viewInfo |} |}.

Definition generateViewEditorStates (h : gmap loc SchemaNode)
  (serviceVdbName : string) (viewInfos : list ViewInfo)
  : completion (list ViewEditorState) :=
  generateViewEditorStates_loop h serviceVdbName viewInfos [].

(** *** The tree a location unfolds to *)

(** The schema tree reachable from a location: [Null] where the location
    holds no node, otherwise the node's location, its contents and the
    trees of its children in order. *)
#[warnings="-register-all"]
Inductive Tree : Type :=
| Null
| Node (l : loc) (nd : SchemaNode) (kids : list Tree).

Fixpoint is_tree (h : gmap loc SchemaNode) (l : loc) (t : Tree) : Prop :=
  match t with
  | Null => h !! l = None
  | Node l' nd kids =>
      l' = l ∧ h !! l = Some nd ∧
      (fix all2 (ls : list loc) (ts : list Tree) {struct ts} : Prop :=
         match ls, ts with
         | [], [] => True
         | l1 :: ls', t1 :: ts' => is_tree h l1 t1 ∧ all2 ls' ts'
         | _, _ => False
         end) (children nd) kids
  end.

Fixpoint height (t : Tree) : nat :=
  match t with
  | Null => 1
  | Node _ _ kids => S (foldr (λ k acc, Nat.max (height k) acc) 0 kids)
  end.

(** The nodes of a tree in pre-order, each with the names of its strict
    ancestors (outermost first) prefixed by [prefix]. *)
Fixpoint preorder (prefix : list string) (t : Tree)
  : list (loc * SchemaNode * list string) :=
  match t with
  | Null => []
  | Node l nd kids =>
      (l, nd, prefix) :: flat_map (preorder (prefix ++ [name nd])) kids
  end.

(** One visited node: its location, its contents, its ancestors' names. *)
Abbreviation visit := (loc * SchemaNode * list string)%type.

Definition visit_loc (v : visit) : loc := v.1.1.
Definition visit_node (v : visit) : SchemaNode := v.1.2.
Definition visit_ancestors (v : visit) : list string := v.2.
Definition visit_queryable (v : visit) : bool := queryable (visit_node v).

(** The locations of the nodes of a tree, in pre-order. *)
Definition tree_locs (t : Tree) : list loc := visit_loc <$> preorder [] t.

(** [subtree s t]: the tree [s] occurs in [t], at the root or below. *)
Inductive subtree (s : Tree) : Tree → Prop :=
| subtree_here : subtree s s
| subtree_below l nd kids k :
    k ∈ kids → subtree s k → subtree s (Node l nd kids).

(** The view info the traversal builds for the node at [l] with contents
    [nd] when its path array is the one at [sourcePath]. *)
Definition view_of (selectedViewNames existingViewNames : list string)
  (l : loc) (nd : SchemaNode) (sourcePath : loc) : ViewInfo :=
  let vwName := connectionName nd +:+ "_" +:+ name nd in
  {| vi_connectionName := connectionName nd;
     isUpdate := bool_decide (vwName ∈ existingViewNames);
     nodePath := sourcePath;
     selected := bool_decide (vwName ∈ selectedViewNames);
     viewName := vwName;
     viewSourceNode := l |}.

(** The view infos pushed along a sequence of visits when the first
    visited node allocates its path array at [base]: every visited node
    allocates exactly one array, queryable ones also push a view info. *)
Fixpoint emitted_from (selectedViewNames existingViewNames : list string)
  (base : loc) (vs : list visit) : list ViewInfo :=
  match vs with
  | [] => []
  | v :: rest =>
      (if visit_queryable v
       then [view_of selectedViewNames existingViewNames
                     (visit_loc v) (visit_node v) base]
       else [])
      ++ emitted_from selectedViewNames existingViewNames (S base) rest
  end.

(** What the path array allocated at a visit holds once the visit is
    over: the ancestors' names followed by the node's own name. *)
Definition final_path (v : visit) : list string :=
  visit_ancestors v ++ [name (visit_node v)].

(** The store after a sequence of visits. *)
Definition after_visits (selectedViewNames existingViewNames : list string)
  (σ : Store) (vs : list visit) : Store :=
  {| nodes := nodes σ;
     arrays := arrays σ ++ (final_path <$> vs);
     viewInfos :=
       viewInfos σ ++
       emitted_from selectedViewNames existingViewNames
                    (length (arrays σ)) vs |}.

(** A computation that, whenever it completes, leaves the schema nodes
    of the store as they were. *)
Definition preserves_nodes {A} (m : M A) : Prop :=
  ∀ σ a σ', m σ = Normal (a, σ') → nodes σ' = nodes σ.

(** The identity of a view info: everything but its two flags. *)
Definition view_identity (view : ViewInfo) : string * loc * string * loc :=
  (vi_connectionName view, nodePath view, viewName view, viewSourceNode view).

End ViewInfos.

(** ** Sample schema trees *)

Module Samples.
Import ViewInfos.

(** A non-queryable root with one queryable table below it. *)
Definition root : SchemaNode :=
  {| name := "root"; connectionName := "conn"; path := "connection=conn";
     queryable := false; children := [1] |}.

Definition t1 : SchemaNode :=
  {| name := "t1"; connectionName := "conn";
     path := "connection=conn/table=t1";
     queryable := true; children := [] |}.

Definition small_tree : Tree := Node 0 root [Node 1 t1 []].

(** The caller's store: the two nodes, and the empty array (at location
    0) that it passes as [nodePath]; [viewInfos] starts empty. *)
Definition small_store : Store :=
  {| nodes := <[0 := root]> (<[1 := t1]> ∅);
     arrays := [[]];
     viewInfos := [] |}.

(** A larger tree: a non-queryable schema holding a queryable table with
    a queryable child of its own, a non-queryable table, and a child
    reference that holds no node. *)
Definition schema : SchemaNode :=
  {| name := "public"; connectionName := "pg"; path := "schema=public";
     queryable := false; children := [11; 12; 99] |}.

Definition account : SchemaNode :=
  {| name := "account"; connectionName := "pg";
     path := "schema=public/table=account";
     queryable := true; children := [13] |}.

Definition audit : SchemaNode :=
  {| name := "audit"; connectionName := "pg";
     path := "schema=public/table=audit";
     queryable := false; children := [] |}.

Definition history : SchemaNode :=
  {| name := "history"; connectionName := "pg";
     path := "schema=public/table=account/table=history";
     queryable := true; children := [] |}.

Definition pg_tree : Tree :=
  Node 10 schema
    [Node 11 account [Node 13 history []]; Node 12 audit []; Null].

Definition pg_store : Store :=
  {| nodes := <[10 := schema]> (<[11 := account]> (<[12 := audit]>
              (<[13 := history]> ∅)));
     arrays := [[]];
     viewInfos := [] |}.

End Samples.

(** * Properties *)

(** ** Strings and path segments *)

Section SplitFacts.
Import JsString.
Variable sep : ascii.

Lemma split_not_nil (s : string) : split sep s ≠ [].
Proof.
  destruct s as [|c rest]; simpl; [done|].
  destruct (Ascii.eqb c sep); [done|].
  by destruct (split sep rest).
Qed.

Lemma split_first (s : string) : split sep s !! 0 = Some (before_first sep s).
Proof.
  induction s as [|c rest IH]; simpl; [done|].
  destruct (Ascii.eqb c sep); [done|].
  destruct (split sep rest) as [|piece pieces]; simpl in *; congruence.
Qed.

Lemma split_second (s : string) :
  split sep s !! 1 = before_first sep <$> after_first sep s.
Proof.
  induction s as [|c rest IH]; simpl; [done|].
  destruct (Ascii.eqb c sep).
  - simpl. apply split_first.
  - pose proof (split_not_nil rest) as Hne.
    destruct (split sep rest) as [|piece pieces]; [done|].
    simpl in *. exact IH.
Qed.

Lemma before_first_no_sep (s : string) :
  occurs sep s = false → before_first sep s = s.
Proof.
  induction s as [|c rest IH]; simpl; [done|].
  destruct (Ascii.eqb c sep); simpl; [done|].
  intros H. by rewrite IH.
Qed.

Lemma split_last_lookup (s : string) :
  split sep s !! (length (split sep s) - 1) = Some (List.last (split sep s) "").
Proof.
  pose proof (split_not_nil s) as Hne.
  induction (split sep s) as [|x xs IH]; [done|].
  destruct xs as [|y ys]; [done|].
  replace (length (x :: y :: ys) - 1) with (S (length (y :: ys) - 1))
    by (simpl; lia).
  change (List.last (x :: y :: ys) "") with (List.last (y :: ys) "").
  simpl lookup. by apply IH.
Qed.

End SplitFacts.

Lemma string_app_assoc (a b c : string) : (a +:+ b) +:+ c = a +:+ (b +:+ c).
Proof.
  induction a as [|x a IH]; [done|].
  change (String x ((a +:+ b) +:+ c) = String x (a +:+ (b +:+ c))).
  by rewrite IH.
Qed.

Section PreviewSqlFacts.
Import JsString PreviewSql.

Lemma getConnectionName_eq (p : string) :
  getConnectionName p =
  Normal (before_first "=" <$> spec_segment_value (first_segment p)).
Proof.
  unfold getConnectionName, spec_segment_value, first_segment.
  pose proof (split_first "/" p) as H.
  destruct (split "/" p) as [|seg segs]; [done|].
  simpl in *. by rewrite split_second.
Qed.

Lemma getNodeName_eq (p : string) :
  getNodeName p =
  Normal (before_first "=" <$> spec_segment_value (last_segment p)).
Proof.
  unfold getNodeName, spec_segment_value, last_segment.
  cbv zeta. rewrite split_last_lookup. by rewrite split_second.
Qed.

Lemma getPreviewSql_undefined_connection {caseMapping : CaseMapping}
  (vd : ViewDefinition) p rest :
  sourcePaths vd = p :: rest → p ≠ "" →
  getConnectionName p = Normal None →
  getPreviewSql vd = TypeError.
Proof.
  intros Hp Hne Hc. unfold getPreviewSql. rewrite Hp. simpl.
  rewrite bool_decide_eq_false_2 by done. simpl.
  unfold getPreviewTableName. by rewrite Hc.
Qed.

End PreviewSqlFacts.

(** ** Preview SQL: the claims *)

(** C5, as stated, fails: on a first segment whose value contains a
    further [=], the connection name the code extracts is not what
    follows the first [=]. On ["connection=a=b/table=t"] the code
    extracts ["a"], the statement asks for ["a=b"]. *)
Lemma C5_value_with_equals_sign_is_cut :
  PreviewSql.getConnectionName "connection=a=b/table=t" = Normal (Some "a")
  ∧ PreviewSql.spec_connectionName "connection=a=b/table=t" = Some "a=b"
  ∧ PreviewSql.getConnectionName "connection=a=b/table=t"
    ≠ Normal (PreviewSql.spec_connectionName "connection=a=b/table=t").
Proof. repeat split; done. Qed.

(** C5, amended: the connection name extracted from a path is the text of
    its first [/]-delimited segment between the first [=] and the next
    [=] (or the end of the segment), undefined when the segment has no
    [=]; the node name is the same part of the last segment. Whenever the
    value after the first [=] holds no further [=], the extracted name is
    that whole value. *)
Theorem C5_names_are_second_piece_of_segment (sourcePath : string) :
  PreviewSql.getConnectionName sourcePath =
    Normal (JsString.before_first "=" <$>
            JsString.after_first "=" (PreviewSql.first_segment sourcePath))
  ∧ PreviewSql.getNodeName sourcePath =
    Normal (JsString.before_first "=" <$>
            JsString.after_first "=" (PreviewSql.last_segment sourcePath))
  ∧ (∀ v, PreviewSql.spec_connectionName sourcePath = Some v →
          JsString.occurs "=" v = false →
          PreviewSql.getConnectionName sourcePath = Normal (Some v))
  ∧ (∀ v, PreviewSql.spec_nodeName sourcePath = Some v →
          JsString.occurs "=" v = false →
          PreviewSql.getNodeName sourcePath = Normal (Some v)).
Proof.
  split; [apply getConnectionName_eq|].
  split; [apply getNodeName_eq|].
  split; intros v Hv Hno.
  - rewrite getConnectionName_eq.
    unfold PreviewSql.spec_connectionName in Hv. rewrite Hv. simpl.
    by rewrite before_first_no_sep.
  - rewrite getNodeName_eq.
    unfold PreviewSql.spec_nodeName in Hv. rewrite Hv. simpl.
    by rewrite before_first_no_sep.
Qed.

Lemma C5_names_witness :
  PreviewSql.getConnectionName "connection=pgConn/schema=public/table=account"
    = Normal (Some "pgConn")
  ∧ PreviewSql.getNodeName "connection=pgConn/schema=public/table=account"
    = Normal (Some "account").
Proof.
  pose proof (C5_names_are_second_piece_of_segment
                "connection=pgConn/schema=public/table=account")
    as (_ & _ & Hc & Hn).
  split; [apply Hc | apply Hn]; reflexivity.
Defined.

(** C4, as stated, fails: with a non-empty [sourcePaths] whose first
    element is the empty string the result is the empty string, not a
    [SELECT] statement, whatever names one reads out of that path. *)
Lemma C4_empty_first_path_gives_no_select :
  let vd := {| compositions := []; isComplete := true;
               keng__description := ""; projectedColumns := [];
               sourcePaths := [""]; vd_viewName := "v" |} in
  sourcePaths vd ≠ []
  ∧ ∀ caseMapping : JsString.CaseMapping,
      PreviewSql.getPreviewSql vd = Normal ""
      ∧ ∀ connectionName nodeName : string,
          PreviewSql.getPreviewSql vd
          ≠ Normal ("SELECT * FROM " +:+
                    JsString.toLowerCase connectionName +:+
                    "schemamodel" +:+ "." +:+ nodeName +:+ ";").
Proof. repeat split; done. Qed.

(** C4, amended: [getPreviewSql] returns the empty string when
    [sourcePaths] is empty or its first element is the empty string;
    otherwise, when a connection name and a node name are extracted from
    the first source path, it returns exactly ["SELECT * FROM "] +
    lowercase(connectionName) + ["schemamodel"] + ["."] + nodeName +
    [";"], whatever the further source paths are. On the single path
    ["connection=pgConn/schema=public/table=account"] the result is
    ["SELECT * FROM pgconnschemamodel.account;"]. *)
Theorem C4_getPreviewSql_first_path_only
  {caseMapping : JsString.CaseMapping} (vd : ViewDefinition) :
  (sourcePaths vd = [] → PreviewSql.getPreviewSql vd = Normal "")
  ∧ (∀ rest, sourcePaths vd = "" :: rest →
             PreviewSql.getPreviewSql vd = Normal "")
  ∧ (∀ p rest connectionName nodeName,
       sourcePaths vd = p :: rest → p ≠ "" →
       PreviewSql.getConnectionName p = Normal (Some connectionName) →
       PreviewSql.getNodeName p = Normal (Some nodeName) →
       PreviewSql.getPreviewSql vd =
       Normal ("SELECT * FROM " +:+ JsString.toLowerCase connectionName +:+
               "schemamodel" +:+ "." +:+ nodeName +:+ ";"))
  ∧ (sourcePaths vd = ["connection=pgConn/schema=public/table=account"] →
     PreviewSql.getPreviewSql vd =
     Normal "SELECT * FROM pgconnschemamodel.account;").
Proof.
  assert (Hformula : ∀ p rest connectionName nodeName,
    sourcePaths vd = p :: rest → p ≠ "" →
    PreviewSql.getConnectionName p = Normal (Some connectionName) →
    PreviewSql.getNodeName p = Normal (Some nodeName) →
    PreviewSql.getPreviewSql vd =
    Normal ("SELECT * FROM " +:+ JsString.toLowerCase connectionName +:+
            "schemamodel" +:+ "." +:+ nodeName +:+ ";")).
  { intros p rest c n Hp Hne Hc Hn.
    unfold PreviewSql.getPreviewSql. rewrite Hp. simpl.
    rewrite bool_decide_eq_false_2 by done. simpl.
    unfold PreviewSql.getPreviewTableName. rewrite Hc. simpl. rewrite Hn.
    simpl. unfold PreviewSql.SCHEMA_MODEL_SUFFIX.
    by rewrite !string_app_assoc. }
  split; [|split; [|split]].
  - unfold PreviewSql.getPreviewSql. by intros ->.
  - unfold PreviewSql.getPreviewSql. by intros rest ->.
  - exact Hformula.
  - intros Hp.
    rewrite (Hformula _ _ "pgConn" "account" Hp) by done.
    by rewrite (JsString.toLowerCase_ascii "pgConn").
Qed.

Lemma C4_getPreviewSql_witness :
  PreviewSql.getPreviewSql (caseMapping := JsString.ascii_case_mapping)
    {| compositions := []; isComplete := true; keng__description := "d";
       projectedColumns := [];
       sourcePaths := ["connection=Db1/table=T1"; "connection=other/table=x"];
       vd_viewName := "v" |}
  = Normal "SELECT * FROM db1schemamodel.T1;".
Proof.
  pose proof (C4_getPreviewSql_first_path_only
                (caseMapping := JsString.ascii_case_mapping)
    {| compositions := []; isComplete := true; keng__description := "d";
       projectedColumns := [];
       sourcePaths := ["connection=Db1/table=T1"; "connection=other/table=x"];
       vd_viewName := "v" |}) as (_ & _ & H & _).
  apply (H "connection=Db1/table=T1" ["connection=other/table=x"] "Db1" "T1");
    [reflexivity | discriminate | reflexivity | reflexivity].
Defined.

(** C10: when [sourcePaths] is not empty but its first element is the
    empty string, [getPreviewSql] returns the empty string and not a
    [SELECT] statement. *)
Theorem C10_empty_first_path_returns_empty
  {caseMapping : JsString.CaseMapping}
  (vd : ViewDefinition) (rest : list string) :
  sourcePaths vd = "" :: rest →
  PreviewSql.getPreviewSql vd = Normal ""
  ∧ ∀ table : string,
      PreviewSql.getPreviewSql vd ≠ Normal ("SELECT * FROM " +:+ table +:+ ";").
Proof.
  intros H. unfold PreviewSql.getPreviewSql. rewrite H. simpl.
  split; [done|]. intros table. simpl. discriminate.
Qed.

Lemma C10_empty_first_path_witness :
  PreviewSql.getPreviewSql (caseMapping := JsString.ascii_case_mapping)
    {| compositions := []; isComplete := true; keng__description := "d";
       projectedColumns := [];
       sourcePaths := [""; "connection=c/table=t"];
       vd_viewName := "v" |} = Normal "".
Proof.
  apply (C10_empty_first_path_returns_empty _ ["connection=c/table=t"]).
  reflexivity.
Defined.

(** ** Publishing details *)

(** C8: [getPublishingDetails] keeps the published state, always reports
    four steps in total, maps CONFIGURING, BUILDING, DEPLOYING and RUNNING
    to steps 1 to 4 with their fixed texts and every other state to step 0
    with an empty text, and passes a publish log URL through unchanged
    (an absent or empty URL leaves the result without one). *)
Theorem C8_getPublishingDetails_steps (v : Publishing.RestDataService) :
  let d := Publishing.getPublishingDetails v in
  Publishing.state d = Publishing.publishedState v
  ∧ Publishing.stepTotal d = 4
  ∧ (Publishing.publishedState v = "CONFIGURING" →
     Publishing.stepNumber d = 1 ∧ Publishing.stepText d = "Configuring")
  ∧ (Publishing.publishedState v = "BUILDING" →
     Publishing.stepNumber d = 2 ∧ Publishing.stepText d = "Building")
  ∧ (Publishing.publishedState v = "DEPLOYING" →
     Publishing.stepNumber d = 3 ∧ Publishing.stepText d = "Deploying")
  ∧ (Publishing.publishedState v = "RUNNING" →
     Publishing.stepNumber d = 4 ∧ Publishing.stepText d = "Published")
  ∧ (Publishing.publishedState v ≠ "CONFIGURING" →
     Publishing.publishedState v ≠ "BUILDING" →
     Publishing.publishedState v ≠ "DEPLOYING" →
     Publishing.publishedState v ≠ "RUNNING" →
     Publishing.stepNumber d = 0 ∧ Publishing.stepText d = "")
  ∧ (∀ url, Publishing.publishLogUrl v = Some url → url ≠ "" →
            Publishing.logUrl d = Some url)
  ∧ (Publishing.publishLogUrl v = None ∨ Publishing.publishLogUrl v = Some "" →
     Publishing.logUrl d = None).
Proof.
  destruct v as [st url]. unfold Publishing.getPublishingDetails. simpl.
  assert (Hstate : ∀ d f,
    Publishing.state
      (if JsString.truthy url then Publishing.set_logUrl f d else d)
    = Publishing.state d) by (intros; by destruct (JsString.truthy url)).
  assert (Htotal : ∀ d f,
    Publishing.stepTotal
      (if JsString.truthy url then Publishing.set_logUrl f d else d)
    = Publishing.stepTotal d) by (intros; by destruct (JsString.truthy url)).
  assert (Hnum : ∀ d f,
    Publishing.stepNumber
      (if JsString.truthy url then Publishing.set_logUrl f d else d)
    = Publishing.stepNumber d) by (intros; by destruct (JsString.truthy url)).
  assert (Htext : ∀ d f,
    Publishing.stepText
      (if JsString.truthy url then Publishing.set_logUrl f d else d)
    = Publishing.stepText d) by (intros; by destruct (JsString.truthy url)).
  rewrite Hstate, Htotal, Hnum, Htext.
  repeat split.
  - repeat case_bool_decide; done.
  - repeat case_bool_decide; done.
  - subst st. done.
  - subst st. done.
  - subst st. done.
  - subst st. done.
  - subst st. done.
  - subst st. done.
  - subst st. done.
  - subst st. done.
  - repeat case_bool_decide; done.
  - repeat case_bool_decide; done.
  - intros u -> Hne. simpl. rewrite bool_decide_eq_false_2 by done. simpl.
    repeat case_bool_decide; done.
  - intros [-> | ->]; simpl; repeat case_bool_decide; done.
Qed.

Lemma C8_getPublishingDetails_witness :
  Publishing.getPublishingDetails
    {| Publishing.publishedState := "DEPLOYING";
       Publishing.publishLogUrl := Some "http://logs/1" |}
  = {| Publishing.logUrl := Some "http://logs/1";
       Publishing.state := "DEPLOYING";
       Publishing.stepNumber := 3; Publishing.stepText := "Deploying";
       Publishing.stepTotal := 4 |}.
Proof.
  pose proof (C8_getPublishingDetails_steps
    {| Publishing.publishedState := "DEPLOYING";
       Publishing.publishLogUrl := Some "http://logs/1" |})
    as (Hs & Ht & _ & _ & Hd & _ & _ & Hu & _).
  specialize (Hd eq_refl) as [Hn Htx].
  specialize (Hu "http://logs/1" eq_refl ltac:(discriminate)).
  destruct (Publishing.getPublishingDetails _) as [l s n t tt] eqn:E.
  simpl in *. by subst.
Defined.

(** ** Editor states *)

Section EditorStateFacts.
Import ViewInfos.
Variable h : gmap loc SchemaNode.
Variable serviceVdbName : string.

Lemma generateViewEditorStates_loop_spec (vis : list ViewInfo) :
  ∀ acc : list ViewEditorState,
  (∀ vi, vi ∈ vis → is_Some (h !! viewSourceNode vi)) →
  ∃ out,
    generateViewEditorStates_loop h serviceVdbName vis acc = Normal (acc ++ out)
    ∧ length out = length vis
    ∧ ∀ i vi, vis !! i = Some vi →
        ∃ node, h !! viewSourceNode vi = Some node
                ∧ out !! i = Some (editorState_of serviceVdbName vi node).
Proof.
  induction vis as [|v vis IH]; intros acc Hall.
  - exists []. simpl. rewrite app_nil_r. repeat split; [|done..].
    intros i vi Hi. by destruct i.
  - destruct (Hall v) as [node Hnode]; [by left|].
    destruct (IH (acc ++ [editorState_of serviceVdbName v node])) as
      (out & Hrun & Hlen & Hout).
    { intros vi Hvi. apply Hall. by right. }
    exists (editorState_of serviceVdbName v node :: out).
    simpl. rewrite Hnode.
    split; [|split].
    + unfold editorState_of in Hrun. simpl in Hrun. rewrite Hrun.
      by rewrite <- app_assoc.
    + by rewrite Hlen.
    + intros [|i] vi Hi; simpl in Hi.
      * injection Hi as <-. by exists node.
      * by apply Hout.
Qed.

End EditorStateFacts.

(** C3: for every virtualization name and every sequence of view infos
    (each referring to a source node of the store),
    [generateViewEditorStates] returns one editor state per view info, in
    the same order; the i-th has id = virtualization name + ["."] + view
    name, and a view definition with that view name, the single source
    path ["connection="] + connection name + ["/"] + the node's own path,
    the description view name + [" description"], the single projected
    column ALL/ALL/selected, no compositions, and [isComplete] true. *)
Theorem C3_generateViewEditorStates_one_per_view
  (h : gmap loc ViewInfos.SchemaNode) (serviceVdbName : string)
  (viewInfos : list ViewInfos.ViewInfo) :
  (∀ vi, vi ∈ viewInfos → is_Some (h !! ViewInfos.viewSourceNode vi)) →
  ∃ editorStates,
    ViewInfos.generateViewEditorStates h serviceVdbName viewInfos
      = Normal editorStates
    ∧ length editorStates = length viewInfos
    ∧ ∀ i viewInfo, viewInfos !! i = Some viewInfo →
        ∃ node,
          h !! ViewInfos.viewSourceNode viewInfo = Some node
          ∧ editorStates !! i = Some
              {| es_id :=
                   serviceVdbName +:+ "." +:+ ViewInfos.viewName viewInfo;
                 viewDefinition :=
                   {| compositions := [];
                      isComplete := true;
                      keng__description :=
                        ViewInfos.viewName viewInfo +:+ " description";
                      projectedColumns :=
                        [{| pc_name := "ALL"; pc_selected := true;
                            pc_type := "ALL" |}];
                      sourcePaths :=
                        ["connection=" +:+
                         ViewInfos.vi_connectionName viewInfo +:+ "/" +:+
                         ViewInfos.path node];
                      vd_viewName := ViewInfos.viewName viewInfo |} |}.
Proof.
  intros Hall.
  destruct (generateViewEditorStates_loop_spec h serviceVdbName viewInfos []
              Hall) as (out & Hrun & Hlen & Hout).
  exists out. split; [exact Hrun|]. split; [exact Hlen|]. exact Hout.
Qed.

Lemma C3_generateViewEditorStates_witness :
  let h : gmap loc ViewInfos.SchemaNode :=
    {[ 1 := {| ViewInfos.name := "t1"; ViewInfos.connectionName := "conn";
               ViewInfos.path := "connection=conn/table=t1";
               ViewInfos.queryable := true; ViewInfos.children := [] |} ]} in
  let vis :=
    [ {| ViewInfos.vi_connectionName := "conn"; ViewInfos.isUpdate := false;
         ViewInfos.nodePath := 0; ViewInfos.selected := false;
         ViewInfos.viewName := "conn_t1"; ViewInfos.viewSourceNode := 1 |} ] in
  (∀ vi, vi ∈ vis → is_Some (h !! ViewInfos.viewSourceNode vi))
  ∧ ∃ editorStates,
      ViewInfos.generateViewEditorStates h "vdb1" vis = Normal editorStates
      ∧ length editorStates = 1
      ∧ (es_id <$> editorStates) = ["vdb1.conn_t1"]
      ∧ (sourcePaths ∘ viewDefinition <$> editorStates)
        = [["connection=conn/connection=conn/table=t1"]].
Proof.
  intros h vis.
  assert (Hall : ∀ vi, vi ∈ vis → is_Some (h !! ViewInfos.viewSourceNode vi)).
  { intros vi Hvi. apply list_elem_of_singleton in Hvi. subst vi. by eexists. }
  split; [exact Hall|].
  destruct (C3_generateViewEditorStates_one_per_view h "vdb1" vis Hall)
    as (out & Hrun & Hlen & Hout).
  exists out. split; [exact Hrun|]. split; [exact Hlen|].
  destruct (Hout 0 _ eq_refl) as (node & Hnode & H0).
  vm_compute in Hnode. injection Hnode as <-.
  destruct out as [|e [|e' out]]; [discriminate| |discriminate].
  injection H0 as ->. split; reflexivity.
Defined.

(** ** Connection annotation *)

Section DvConnectionFacts.
Import DvConnections.
Variable statuses : list VirtualizationSourceStatus.
Variable selectedConn : string.

Lemma generateDvConnections_loop_spec (conns : list loc) :
  ∀ (dvConns : list loc) (σ : gmap loc Connection),
  (∀ l, l ∈ conns → is_Some (σ !! l)) →
  ∃ σ' : gmap loc Connection,
    generateDvConnections_loop conns statuses selectedConn dvConns σ
      = Normal (dvConns ++ conns, σ')
    ∧ ∀ l, σ' !! l = if decide (l ∈ conns)
                     then annotated statuses selectedConn <$> σ !! l
                     else σ !! l.
Proof.
  induction conns as [|conn rest IH]; intros dvConns σ Hall.
  - exists σ. split; [simpl; by rewrite app_nil_r|].
    intros l. destruct (decide (l ∈ [])) as [Hin|]; [|done].
    by apply not_elem_of_nil in Hin.
  - destruct (Hall conn) as [c Hc]; [by left|].
    simpl. rewrite Hc.
    destruct (IH (dvConns ++ [conn])
                 (<[conn := annotated statuses selectedConn c]> σ))
      as (σ' & Hrun & Hσ').
    { intros l Hl. destruct (decide (l = conn)) as [->|Hne].
      - rewrite lookup_insert_eq. by eexists.
      - rewrite lookup_insert_ne by done. apply Hall. by right. }
    exists σ'. split.
    + unfold annotated in Hrun. rewrite Hrun. by rewrite <- app_assoc.
    + intros l. rewrite Hσ'.
      destruct (decide (l = conn)) as [->|Hne].
      * rewrite lookup_insert_eq, Hc.
        rewrite (decide_True (P := conn ∈ conn :: rest)) by by left.
        by destruct (decide (conn ∈ rest)).
      * rewrite lookup_insert_ne by done.
        destruct (decide (l ∈ rest)) as [Hin|Hnin].
        -- by rewrite decide_True by by right.
        -- rewrite decide_False; [done|].
           intros [?|?]%elem_of_cons; done.
Qed.

Lemma connStatus_of_active (c : Connection) :
  connStatus_of statuses c = ACTIVE ↔
  ∃ st, List.find (λ s, bool_decide (sourceName s = conn_name c)) statuses
          = Some st
        ∧ vdbState st = "ACTIVE" ∧ schemaState st = "ACTIVE".
Proof.
  unfold connStatus_of.
  destruct (List.find _ statuses) as [st|]; split.
  - intros H. exists st. split; [done|].
    do 2 case_bool_decide; simpl in H; try discriminate. done.
  - intros (st' & [= <-] & Hv & Hs).
    by rewrite !bool_decide_eq_true_2.
  - discriminate.
  - by intros (st' & [=] & _).
Qed.

Lemma selectionState_of_selected (c : Connection) :
  selectionState_of selectedConn c = SELECTED ↔ conn_name c = selectedConn.
Proof.
  unfold selectionState_of. case_bool_decide; split; (done || discriminate).
Qed.

Lemma dv_options_status (s : DvConnectionStatus) (sel : DvConnectionSelection) :
  dv_options s sel !! "dvStatus" = Some (DvConnectionStatus_value s).
Proof.
  unfold dv_options. rewrite lookup_insert_ne by done.
  apply lookup_insert_eq.
Qed.

Lemma dv_options_selected (s : DvConnectionStatus) (sel : DvConnectionSelection) :
  dv_options s sel !! "dvSelected" = Some (DvConnectionSelection_value sel).
Proof. unfold dv_options. apply lookup_insert_eq. Qed.

Lemma dv_options_dom (s : DvConnectionStatus) (sel : DvConnectionSelection) :
  dom (dv_options s sel) = {[ "dvStatus"; "dvSelected" ]}.
Proof.
  unfold dv_options. rewrite !dom_insert_L, dom_empty_L. set_solver.
Qed.

End DvConnectionFacts.

(** C6: [generateDvConnections] returns the very connections it was given
    (same locations, same order, same length) and leaves each of them
    with its name unchanged and with [options] holding exactly the two
    keys [dvStatus] and [dvSelected]: [dvStatus] is ["ACTIVE"] iff the
    first status record whose [sourceName] equals the connection's name
    exists and has [vdbState] and [schemaState] both ["ACTIVE"], and
    ["INACTIVE"] otherwise; [dvSelected] is ["SELECTED"] iff the
    connection's name equals the selected name, and ["NOTSELECTED"]
    otherwise. Whatever [options] held before is gone; connections that
    are not in the list are untouched. *)
Theorem C6_generateDvConnections_annotates
  (conns : list loc)
  (statuses : list DvConnections.VirtualizationSourceStatus)
  (selectedConn : string) (σ : gmap loc DvConnections.Connection) :
  (∀ l, l ∈ conns → is_Some (σ !! l)) →
  ∃ σ' : gmap loc DvConnections.Connection,
    DvConnections.generateDvConnections conns statuses selectedConn σ
      = Normal (conns, σ')
    ∧ (∀ l c, l ∈ conns → σ !! l = Some c →
         ∃ opts : gmap string string,
           σ' !! l = Some {| DvConnections.conn_name := DvConnections.conn_name c;
                             DvConnections.options := Some opts |}
           ∧ dom opts = {[ "dvStatus"; "dvSelected" ]}
           ∧ (opts !! "dvStatus" = Some "ACTIVE" ↔
              ∃ st, List.find
                      (λ s, bool_decide (DvConnections.sourceName s
                                         = DvConnections.conn_name c))
                      statuses = Some st
                    ∧ DvConnections.vdbState st = "ACTIVE"
                    ∧ DvConnections.schemaState st = "ACTIVE")
           ∧ (opts !! "dvStatus" ≠ Some "ACTIVE" →
              opts !! "dvStatus" = Some "INACTIVE")
           ∧ (opts !! "dvSelected" = Some "SELECTED" ↔
              DvConnections.conn_name c = selectedConn)
           ∧ (opts !! "dvSelected" ≠ Some "SELECTED" →
              opts !! "dvSelected" = Some "NOTSELECTED"))
    ∧ (∀ l, l ∉ conns → σ' !! l = σ !! l).
Proof.
  intros Hall.
  destruct (generateDvConnections_loop_spec statuses selectedConn conns [] σ
              Hall) as (σ' & Hrun & Hσ').
  exists σ'. split; [exact Hrun|]. split.
  - intros l c Hin Hc.
    exists (DvConnections.dv_options
              (DvConnections.connStatus_of statuses c)
              (DvConnections.selectionState_of selectedConn c)).
    split.
    { rewrite Hσ', decide_True by done. by rewrite Hc. }
    split; [apply dv_options_dom|].
    rewrite dv_options_status, dv_options_selected.
    pose proof (connStatus_of_active statuses c) as Hact.
    pose proof (selectionState_of_selected selectedConn c) as Hsel.
    split; [|split; [|split]].
    + rewrite <- Hact.
      destruct (DvConnections.connStatus_of statuses c);
        split; (done || discriminate).
    + by destruct (DvConnections.connStatus_of statuses c).
    + rewrite <- Hsel.
      destruct (DvConnections.selectionState_of selectedConn c);
        split; (done || discriminate).
    + by destruct (DvConnections.selectionState_of selectedConn c).
  - intros l Hnin. by rewrite Hσ', decide_False.
Qed.

Lemma C6_generateDvConnections_witness :
  let c1 := {| DvConnections.conn_name := "c1";
               DvConnections.options := Some {[ "stale" := "x" ]} |} in
  let σ : gmap loc DvConnections.Connection := {[ 7 := c1 ]} in
  let statuses :=
    [ {| DvConnections.sourceName := "c1"; DvConnections.vdbState := "ACTIVE";
         DvConnections.schemaState := "ACTIVE" |} ] in
  (∀ l, l ∈ [7] → is_Some (σ !! l))
  ∧ ∃ (σ' : gmap loc DvConnections.Connection) (opts : gmap string string),
      DvConnections.generateDvConnections [7] statuses "c1" σ
        = Normal ([7], σ')
      ∧ σ' !! 7 = Some {| DvConnections.conn_name := "c1";
                          DvConnections.options := Some opts |}
      ∧ opts !! "dvStatus" = Some "ACTIVE"
      ∧ opts !! "dvSelected" = Some "SELECTED"
      ∧ opts !! "stale" = None.
Proof.
  intros c1 σ statuses.
  assert (Hall : ∀ l, l ∈ [7] → is_Some (σ !! l)).
  { intros l ->%list_elem_of_singleton. by exists c1. }
  split; [exact Hall|].
  destruct (C6_generateDvConnections_annotates [7] statuses "c1" σ Hall)
    as (σ' & Hrun & Hann & _).
  destruct (Hann 7 c1) as (opts & Hl & Hdom & Hst & _ & Hsel & _);
    [by left | reflexivity |].
  exists σ', opts. split; [exact Hrun|]. split; [exact Hl|].
  split; [|split].
  - apply Hst. eexists. split; [reflexivity|]. by split.
  - by apply Hsel.
  - apply not_elem_of_dom.
    rewrite Hdom, not_elem_of_union, !not_elem_of_singleton.
    split; discriminate.
Defined.

(** ** Tree traversal *)

Section TraversalFacts.
Import ViewInfos.

Lemma findIndex_lower_bound {A} (p : A → bool) (xs : list A) :
  (-1 ≤ findIndex p xs)%Z.
Proof.
  induction xs as [|x xs IH]; simpl; [lia|].
  destruct (p x); [lia|]. case_bool_decide; lia.
Qed.

Lemma findIndex_none {A} (p : A → bool) (xs : list A) :
  findIndex p xs = (-1)%Z ↔ ∀ x, x ∈ xs → p x = false.
Proof.
  induction xs as [|x xs IH]; simpl.
  - split; [|done]. intros _ x Hx. by apply not_elem_of_nil in Hx.
  - destruct (p x) eqn:Hpx.
    + split; [lia|]. intros H. specialize (H x ltac:(by left)). congruence.
    + pose proof (findIndex_lower_bound p xs).
      case_bool_decide as Hi.
      * split; [|done]. intros _ y [->|Hy]%elem_of_cons; [done|].
        by apply IH.
      * split; [lia|]. intros H'. exfalso. apply Hi, IH.
        intros y Hy. apply H'. by right.
Qed.

Lemma findIndex_member (vwName : string) (names : list string) :
  (if bool_decide
        (findIndex (λ viewName, bool_decide (viewName = vwName)) names
         = (-1)%Z)
   then false else true)
  = bool_decide (vwName ∈ names).
Proof.
  case_bool_decide as Hi.
  - symmetry. apply bool_decide_eq_false_2. intros Hin.
    apply findIndex_none with (x := vwName) in Hi; [|done].
    by rewrite bool_decide_eq_true_2 in Hi.
  - symmetry. apply bool_decide_eq_true_2.
    destruct (decide (vwName ∈ names)) as [|Hnin]; [done|].
    exfalso. apply Hi, findIndex_none. intros x Hx.
    apply bool_decide_eq_false_2. by intros ->.
Qed.

Lemma is_tree_Node (h : gmap loc SchemaNode) l l' nd kids :
  is_tree h l (Node l' nd kids) ↔
  l' = l ∧ h !! l = Some nd ∧ Forall2 (is_tree h) (children nd) kids.
Proof.
  simpl. do 2 (apply and_iff_compat_l).
  generalize (children nd) as ls.
  induction kids as [|k kids IH]; intros [|l1 ls]; split;
    try done; try (by inversion 1).
  - intros [Hk Hrest]. constructor; [done|]. by apply IH.
  - inversion 1; subst. split; [done|]. by apply IH.
Qed.

Lemma height_kid l nd kids k :
  k ∈ kids → height k ≤ pred (height (Node l nd kids)).
Proof.
  simpl. induction kids as [|k' kids IH]; intros Hin.
  - by apply not_elem_of_nil in Hin.
  - simpl. apply elem_of_cons in Hin as [->|Hin]; [lia|].
    specialize (IH Hin). lia.
Qed.

Lemma height_pos (t : Tree) : 0 < height t.
Proof. destruct t; simpl; lia. Qed.

Section Run.
Variables selectedViewNames existingViewNames : list string.

Local Notation "σ ⊕ vs" :=
  (after_visits selectedViewNames existingViewNames σ vs) (at level 50).

Lemma emitted_from_app base (a b : list visit) :
  emitted_from selectedViewNames existingViewNames base (a ++ b)
  = emitted_from selectedViewNames existingViewNames base a
    ++ emitted_from selectedViewNames existingViewNames (base + length a) b.
Proof.
  revert base. induction a as [|v a IH]; intros base; simpl.
  - by rewrite Nat.add_0_r.
  - rewrite IH, <- app_assoc. do 3 f_equal. lia.
Qed.

Lemma after_visits_nil σ : σ ⊕ [] = σ.
Proof.
  destruct σ. unfold after_visits. simpl. by rewrite !app_nil_r.
Qed.

Lemma after_visits_app σ (a b : list visit) : (σ ⊕ a) ⊕ b = σ ⊕ (a ++ b).
Proof.
  unfold after_visits. simpl. f_equal.
  - by rewrite fmap_app, app_assoc.
  - rewrite emitted_from_app, length_app, length_fmap.
    by rewrite <- app_assoc.
Qed.

Lemma for_each_push σ r (a segs : list string) :
  arrays σ !! r = Some a →
  for_each (λ seg, push r seg) segs σ
  = Normal (tt, {| nodes := nodes σ;
                   arrays := <[r := a ++ segs]> (arrays σ);
                   viewInfos := viewInfos σ |}).
Proof.
  revert σ a. induction segs as [|seg segs IH]; intros σ a Ha; simpl.
  - unfold ret. rewrite app_nil_r, list_insert_id by done. by destruct σ.
  - unfold bind, push at 1. rewrite Ha.
    rewrite (IH _ (a ++ [seg])); simpl.
    + by rewrite list_insert_insert_eq, <- app_assoc.
    + apply list_lookup_insert_eq. by eapply lookup_lt_Some.
Qed.

Lemma bind_run {A B} (m : M A) (k : A → M B) σ a σ' :
  m σ = Normal (a, σ') → bind m k σ = k a σ'.
Proof. unfold bind. by intros ->. Qed.

(** The steps of one call before it descends: allocate the path array,
    copy the caller's path, push the view info when queryable, push the
    node's own name. *)
Lemma node_steps {B} σ l nd p prefix (k : loc → M B) :
  arrays σ !! p = Some prefix →
  (sourcePath <- new_array ;;
   segs <- read_array p ;;
   for_each (λ seg, push sourcePath seg) segs ;;
   (if queryable nd then
      let vwName := connectionName nd +:+ "_" +:+ name nd in
      let selectedState :=
        if bool_decide
             (findIndex (λ viewName, bool_decide (viewName = vwName))
                        selectedViewNames = (-1)%Z)
        then false else true in
      let hasExistingView :=
        if bool_decide
             (findIndex (λ viewName, bool_decide (viewName = vwName))
                        existingViewNames = (-1)%Z)
        then false else true in
      push_view {| vi_connectionName := connectionName nd;
                   isUpdate := hasExistingView;
                   nodePath := sourcePath;
                   selected := selectedState;
                   viewName := vwName;
                   viewSourceNode := l |}
    else ret tt) ;;
   push sourcePath (name nd) ;;
   k sourcePath) σ
  = k (length (arrays σ)) (σ ⊕ [(l, nd, prefix)]).
Proof.
  intros Hp.
  set (sp := length (arrays σ)).
  rewrite (bind_run _ _ σ sp
             {| nodes := nodes σ; arrays := arrays σ ++ [[]];
                viewInfos := viewInfos σ |}) by done.
  rewrite (bind_run _ _ _ prefix
             {| nodes := nodes σ; arrays := arrays σ ++ [[]];
                viewInfos := viewInfos σ |}).
  2:{ unfold read_array. simpl. by rewrite (lookup_app_l_Some _ _ _ _ Hp). }
  rewrite (bind_run _ _ _ tt
             {| nodes := nodes σ; arrays := arrays σ ++ [prefix];
                viewInfos := viewInfos σ |}).
  2:{ rewrite (for_each_push _ sp []); simpl.
      - rewrite insert_app_r_alt by done. unfold sp.
        by rewrite Nat.sub_diag.
      - by rewrite list_lookup_middle. }
  rewrite (bind_run _ _ _ tt
             {| nodes := nodes σ; arrays := arrays σ ++ [prefix];
                viewInfos :=
                  viewInfos σ ++
                  emitted_from selectedViewNames existingViewNames sp
                               [(l, nd, prefix)] |}).
  2:{ simpl. unfold visit_queryable, visit_node, visit_loc. simpl.
      destruct (queryable nd).
      - unfold push_view, view_of. simpl. by rewrite !findIndex_member.
      - unfold ret. by rewrite app_nil_r. }
  rewrite (bind_run _ _ _ tt (σ ⊕ [(l, nd, prefix)])); [done|].
  unfold push. simpl. rewrite list_lookup_middle by done.
  unfold after_visits. simpl. do 3 f_equal.
  rewrite insert_app_r_alt by done. unfold sp. by rewrite Nat.sub_diag.
Qed.

Lemma generateViewInfos_run fuel :
  ∀ t l p prefix σ,
    is_tree (nodes σ) l t → height t ≤ fuel →
    arrays σ !! p = Some prefix →
    generateViewInfos fuel l p selectedViewNames existingViewNames σ
    = Normal (tt, σ ⊕ preorder prefix t).
Proof.
  induction fuel as [|fuel IH]; intros t l p prefix σ Ht Hh Hp.
  { pose proof (height_pos t). lia. }
  destruct t as [|l' nd kids].
  - simpl in *. rewrite (bind_run _ _ σ None σ).
    + unfold ret. by rewrite after_visits_nil.
    + unfold get_node. by rewrite Ht.
  - apply is_tree_Node in Ht as (-> & Hnd & Hkids).
    assert (Hloop : ∀ ks ls σ1 sp pre,
      Forall2 (is_tree (nodes σ1)) ls ks →
      (∀ k, k ∈ ks → height k ≤ fuel) →
      arrays σ1 !! sp = Some pre →
      for_each (λ childNode,
                  generateViewInfos fuel childNode sp
                    selectedViewNames existingViewNames) ls σ1
      = Normal (tt, σ1 ⊕ flat_map (preorder pre) ks)).
    { clear -IH. induction ks as [|k ks IHks];
        intros ls σ1 sp pre HF Hhs Hsp; inversion HF; subst; simpl.
      - unfold ret. by rewrite after_visits_nil.
      - rewrite (bind_run _ _ _ tt (σ1 ⊕ preorder pre k)).
        + rewrite (IHks _ _ sp pre); [by rewrite after_visits_app|done| |].
          * intros k' Hk'. apply Hhs. by right.
          * simpl. by apply lookup_app_l_Some.
        + apply IH; [done| |done]. apply Hhs. by left. }
    cbn [generateViewInfos].
    rewrite (bind_run _ _ σ (Some nd) σ)
      by (unfold get_node; by rewrite Hnd).
    rewrite (node_steps σ l nd p prefix _ Hp).
    rewrite (Hloop kids _ _ _ (prefix ++ [name nd])).
    + by rewrite after_visits_app.
    + done.
    + intros k Hk. pose proof (height_kid l nd kids k Hk). lia.
    + simpl. by rewrite list_lookup_middle.
Qed.

End Run.
End TraversalFacts.

(** ** Pre-order facts *)

Section PreorderFacts.
Import ViewInfos.

Lemma Tree_ind_kids (P : Tree → Prop) :
  P Null →
  (∀ l nd kids, Forall P kids → P (Node l nd kids)) →
  ∀ t, P t.
Proof.
  intros HNull HNode.
  fix IH 1. intros [|l nd kids]; [exact HNull|].
  apply HNode. induction kids as [|k kids IHkids]; constructor.
  - apply IH.
  - exact IHkids.
Qed.

Lemma elem_of_flat_map {A B} (f : A → list B) (xs : list A) (y : B) :
  y ∈ flat_map f xs ↔ ∃ x, x ∈ xs ∧ y ∈ f x.
Proof.
  rewrite list_elem_of_In, in_flat_map.
  split; intros (x & Hx & Hy); exists x;
    by rewrite ?list_elem_of_In in *.
Qed.

Lemma preorder_in_store (h : gmap loc SchemaNode) (t : Tree) :
  ∀ l prefix x,
    is_tree h l t → x ∈ preorder prefix t →
    h !! visit_loc x = Some (visit_node x).
Proof.
  induction t as [|l' nd kids IH] using Tree_ind_kids;
    intros l prefix x Ht Hx.
  - by apply not_elem_of_nil in Hx.
  - apply is_tree_Node in Ht as (-> & Hnd & Hkids).
    simpl in Hx. apply elem_of_cons in Hx as [->|Hx]; [done|].
    apply elem_of_flat_map in Hx as (k & Hk & Hx).
    apply list_elem_of_lookup in Hk as [i Hi].
    destruct (Forall2_lookup_r _ _ _ _ _ Hkids Hi) as (lk & _ & Hlk).
    rewrite Forall_lookup in IH. by eapply IH.
Qed.

Lemma preorder_locs_prefix (t : Tree) :
  ∀ prefix, visit_loc <$> preorder prefix t = tree_locs t.
Proof.
  unfold tree_locs.
  induction t as [|l nd kids IH] using Tree_ind_kids; intros prefix;
    [done|].
  assert (Hkids : ∀ p q,
    visit_loc <$> flat_map (preorder p) kids
    = visit_loc <$> flat_map (preorder q) kids).
  { intros p q. induction IH as [|k kids Hk _ IHkids]; [done|].
    cbn [flat_map]. rewrite !fmap_app, IHkids. by rewrite (Hk p), (Hk q). }
  cbn [preorder]. rewrite !fmap_cons. f_equal. apply Hkids.
Qed.

(** A subtree's visits form one contiguous block of the visits of the
    whole tree. *)
Lemma preorder_subtree (s t : Tree) :
  subtree s t →
  ∀ prefix, ∃ before after prefix',
    preorder prefix t = before ++ preorder prefix' s ++ after.
Proof.
  induction 1 as [|l nd kids k Hk Hsub IH]; intros prefix.
  - exists [], [], prefix. by rewrite app_nil_r.
  - apply list_elem_of_split in Hk as (k1 & k2 & ->).
    destruct (IH (prefix ++ [name nd])) as (b & a & prefix' & Hpre).
    exists ((l, nd, prefix) :: flat_map (preorder (prefix ++ [name nd])) k1 ++ b),
           (a ++ flat_map (preorder (prefix ++ [name nd])) k2), prefix'.
    simpl. rewrite flat_map_app. simpl. rewrite Hpre.
    by rewrite <- !app_assoc.
Qed.

Section Emitted.
Variables selectedViewNames existingViewNames : list string.
Local Abbreviation emitted :=
  (emitted_from selectedViewNames existingViewNames).

Lemma emitted_sources base (vs : list visit) :
  viewSourceNode <$> emitted base vs
  = visit_loc <$> filter (λ v, visit_queryable v = true) vs.
Proof.
  revert base. induction vs as [|v vs IH]; intros base; [done|].
  simpl. rewrite fmap_app, IH, filter_cons.
  destruct (visit_queryable v) eqn:Hq.
  - by rewrite decide_True by done.
  - by rewrite decide_False by done.
Qed.

Lemma elem_of_emitted base (vs : list visit) (view : ViewInfo) :
  view ∈ emitted base vs ↔
  ∃ i x, vs !! i = Some x ∧ visit_queryable x = true
         ∧ view = view_of selectedViewNames existingViewNames
                          (visit_loc x) (visit_node x) (base + i).
Proof.
  revert base. induction vs as [|v vs IH]; intros base; simpl.
  - split; [by intros ?%not_elem_of_nil|]. by intros (i & x & ? & _).
  - rewrite elem_of_app, IH. split.
    + intros [Hhere|(i & x & Hi & Hq & ->)].
      * destruct (visit_queryable v) eqn:Hq;
          [|by apply not_elem_of_nil in Hhere].
        apply list_elem_of_singleton in Hhere as ->.
        exists 0, v. by rewrite Nat.add_0_r.
      * exists (S i), x. repeat split; [done..|]. f_equal. lia.
    + intros ([|i] & x & Hi & Hq & ->); simpl in Hi.
      * injection Hi as ->. left. rewrite Hq, Nat.add_0_r.
        by apply list_elem_of_singleton.
      * right. exists i, x. repeat split; [done..|]. f_equal. lia.
Qed.

End Emitted.
End PreorderFacts.

Section CountingFacts.
Import ViewInfos.

Lemma filter_eq_absent (l : loc) (xs : list loc) :
  l ∉ xs → filter (λ s, s = l) xs = [].
Proof.
  induction xs as [|x xs IH]; [done|].
  intros [Hne Hnin]%not_elem_of_cons.
  rewrite filter_cons, decide_False by done. by apply IH.
Qed.

Lemma queryable_locs_subset (vs : list visit) (l : loc) :
  l ∈ visit_loc <$> filter (λ v, visit_queryable v = true) vs →
  l ∈ visit_loc <$> vs.
Proof.
  intros (x & -> & Hx)%list_elem_of_fmap.
  apply list_elem_of_filter in Hx as [_ Hx].
  apply list_elem_of_fmap. by exists x.
Qed.

Lemma count_sources (views : list ViewInfo) (l : loc) :
  length (filter (λ view, viewSourceNode view = l) views)
  = length (filter (λ s, s = l) (viewSourceNode <$> views)).
Proof.
  induction views as [|v views IH]; [done|].
  rewrite fmap_cons, !filter_cons.
  destruct (decide (viewSourceNode v = l)); simpl; by rewrite IH.
Qed.

(** In a sequence of visits without repeated locations, a visited node
    accounts for one queryable location if it is queryable and for none
    otherwise. *)
Lemma count_queryable_visit (before after : list visit) (x : visit) :
  NoDup (visit_loc <$> before ++ x :: after) →
  length (filter (λ s, s = visit_loc x)
            (visit_loc <$> filter (λ v, visit_queryable v = true)
                             (before ++ x :: after)))
  = if visit_queryable x then 1 else 0.
Proof.
  rewrite fmap_app, fmap_cons.
  intros (Hb & Hx & Ha)%NoDup_app.
  apply NoDup_cons in Ha as [Hxa _].
  assert (Hxb : visit_loc x ∉ visit_loc <$> before).
  { intros Hin. apply (Hx _ Hin). by left. }
  rewrite filter_app, filter_cons, !fmap_app, !filter_app, !length_app.
  rewrite (filter_eq_absent _ (visit_loc <$> filter _ before)).
  2:{ intros Hin. by apply Hxb, queryable_locs_subset. }
  destruct (visit_queryable x) eqn:Hq.
  - rewrite decide_True by done. rewrite fmap_cons, filter_cons.
    rewrite decide_True by done.
    rewrite filter_eq_absent; [done|].
    intros Hin. by apply Hxa, queryable_locs_subset.
  - rewrite decide_False by done.
    rewrite filter_eq_absent; [done|].
    intros Hin. by apply Hxa, queryable_locs_subset.
Qed.

(** A queryable node precedes every queryable node visited after it. *)
Lemma queryable_order (before mid after : list visit) (x y : visit) :
  visit_queryable x = true → visit_queryable y = true →
  ∃ i j, i < j
    ∧ (visit_loc <$> filter (λ v, visit_queryable v = true)
         (before ++ x :: mid ++ y :: after)) !! i = Some (visit_loc x)
    ∧ (visit_loc <$> filter (λ v, visit_queryable v = true)
         (before ++ x :: mid ++ y :: after)) !! j = Some (visit_loc y).
Proof.
  intros Hx Hy.
  set (q := λ v : visit, visit_queryable v = true).
  exists (length (filter q before)),
         (length (filter q before) + S (length (filter q mid))).
  rewrite filter_app, filter_cons, decide_True by done.
  rewrite filter_app, filter_cons, decide_True by done.
  rewrite !fmap_app, !fmap_cons, fmap_app, fmap_cons.
  split; [lia|]. split.
  - rewrite list_lookup_middle; [done|]. by rewrite length_fmap.
  - rewrite lookup_app_r by (rewrite length_fmap; lia).
    rewrite length_fmap.
    replace (length (filter q before) + S (length (filter q mid))
             - length (filter q before)) with (S (length (filter q mid)))
      by lia.
    simpl. rewrite list_lookup_middle; [done|]. by rewrite length_fmap.
Qed.

Lemma subtree_visited (s t : Tree) l nd kids :
  s = Node l nd kids → subtree s t →
  ∀ prefix, ∃ before after ancestors,
    preorder prefix t
    = before ++ (l, nd, ancestors)
               :: flat_map (preorder (ancestors ++ [name nd])) kids ++ after.
Proof.
  intros -> Hsub prefix.
  destruct (preorder_subtree _ _ Hsub prefix) as (b & a & anc & ->).
  by exists b, a, anc.
Qed.

End CountingFacts.

(** ** The traversal writes no schema node *)

Section Frame.
Import ViewInfos.

Lemma preserves_ret {A} (a : A) : preserves_nodes (ret a).
Proof. intros σ b σ' [= _ <-]. done. Qed.

Lemma preserves_bind {A B} (m : M A) (k : A → M B) :
  preserves_nodes m → (∀ a, preserves_nodes (k a)) →
  preserves_nodes (bind m k).
Proof.
  intros Hm Hk σ b σ'. unfold bind.
  destruct (m σ) as [[a σ1]| |] eqn:Hrun; [|done..].
  intros Hrun'. rewrite (Hk a _ _ _ Hrun'). by eapply Hm.
Qed.

Lemma preserves_new_array : preserves_nodes new_array.
Proof. intros σ a σ' [= _ <-]. done. Qed.

Lemma preserves_read_array r : preserves_nodes (read_array r).
Proof.
  intros σ a σ'. unfold read_array.
  destruct (arrays σ !! r); [|done]. by intros [= _ <-].
Qed.

Lemma preserves_push r seg : preserves_nodes (push r seg).
Proof.
  intros σ a σ'. unfold push.
  destruct (arrays σ !! r); [|done]. intros ?. by simplify_eq.
Qed.

Lemma preserves_push_view view : preserves_nodes (push_view view).
Proof. intros σ a σ' ?. unfold push_view in *. by simplify_eq. Qed.

Lemma preserves_get_node l : preserves_nodes (get_node l).
Proof. intros σ a σ' [= _ <-]. done. Qed.

Lemma preserves_for_each {A} (body : A → M unit) (xs : list A) :
  (∀ x, preserves_nodes (body x)) → preserves_nodes (for_each body xs).
Proof.
  intros Hbody. induction xs as [|x xs IH]; simpl.
  - apply preserves_ret.
  - apply preserves_bind; [apply Hbody | intros _; apply IH].
Qed.

Create HintDb frame.
#[local] Hint Resolve preserves_ret preserves_new_array preserves_read_array
  preserves_push preserves_push_view preserves_get_node : frame.

Lemma generateViewInfos_preserves_nodes
  (selectedViewNames existingViewNames : list string) (fuel : nat) :
  ∀ schemaNode nodePath,
    preserves_nodes (generateViewInfos fuel schemaNode nodePath
                       selectedViewNames existingViewNames).
Proof.
  induction fuel as [|fuel IH]; intros schemaNode nodePath.
  - intros σ a σ'. discriminate.
  - cbn [generateViewInfos].
    apply preserves_bind; [auto with frame|]. intros [nd|]; [|auto with frame].
    apply preserves_bind; [auto with frame|]. intros sourcePath.
    apply preserves_bind; [auto with frame|]. intros segs.
    apply preserves_bind.
    { apply preserves_for_each. auto with frame. }
    intros _. apply preserves_bind.
    { destruct (queryable nd); auto with frame. }
    intros _. apply preserves_bind; [auto with frame|]. intros _.
    apply preserves_for_each. intros childNode. apply IH.
Qed.

End Frame.

(** ** Tree traversal: the claims *)

(** C9: [generateViewInfos] never writes a schema node. Whenever a call
    completes, on any store, the schema nodes are what they were before;
    and on a schema tree the call does complete, leaving every node with
    the same name, connection name, path, queryable flag and children, so
    that the root location still unfolds to the same tree. *)
Theorem C9_generateViewInfos_leaves_tree_unchanged
  (selectedViewNames existingViewNames : list string) (fuel : nat)
  (schemaNode nodePath : loc) (σ : ViewInfos.Store) :
  (∀ σ', ViewInfos.generateViewInfos fuel schemaNode nodePath
           selectedViewNames existingViewNames σ = Normal (tt, σ') →
         ViewInfos.nodes σ' = ViewInfos.nodes σ)
  ∧ (∀ (t : ViewInfos.Tree) (prefix : list string),
       ViewInfos.is_tree (ViewInfos.nodes σ) schemaNode t →
       ViewInfos.height t ≤ fuel →
       ViewInfos.arrays σ !! nodePath = Some prefix →
       ∃ σ',
         ViewInfos.generateViewInfos fuel schemaNode nodePath
           selectedViewNames existingViewNames σ = Normal (tt, σ')
         ∧ ViewInfos.nodes σ' = ViewInfos.nodes σ
         ∧ ViewInfos.is_tree (ViewInfos.nodes σ') schemaNode t
         ∧ ∀ l nd, ViewInfos.nodes σ !! l = Some nd →
             ∃ nd', ViewInfos.nodes σ' !! l = Some nd'
                    ∧ ViewInfos.name nd' = ViewInfos.name nd
                    ∧ ViewInfos.connectionName nd'
                      = ViewInfos.connectionName nd
                    ∧ ViewInfos.path nd' = ViewInfos.path nd
                    ∧ ViewInfos.queryable nd' = ViewInfos.queryable nd
                    ∧ ViewInfos.children nd' = ViewInfos.children nd).
Proof.
  split.
  { intros σ'. apply generateViewInfos_preserves_nodes. }
  intros t prefix Ht Hh Hp.
  pose proof (generateViewInfos_run selectedViewNames existingViewNames
                fuel t schemaNode nodePath prefix σ Ht Hh Hp) as Hrun.
  eexists. split; [exact Hrun|].
  pose proof (generateViewInfos_preserves_nodes _ _ _ _ _ _ _ _ Hrun)
    as Hnodes.
  rewrite Hnodes. split; [done|]. split; [done|].
  intros l nd Hl. by exists nd.
Qed.

(** C7: every view info the traversal emits comes from a queryable node
    of the store; its view name is that node's connection name + ["_"] +
    the node's name, it is selected iff that view name is among the
    selected names and is an update iff that view name is among the
    existing names; and every queryable node of the tree has such a view
    info. *)
Theorem C7_generateViewInfos_view_names
  (selectedViewNames existingViewNames : list string) (fuel : nat)
  (t : ViewInfos.Tree) (schemaNode nodePath : loc) (prefix : list string)
  (σ : ViewInfos.Store) :
  ViewInfos.is_tree (ViewInfos.nodes σ) schemaNode t →
  ViewInfos.height t ≤ fuel →
  ViewInfos.arrays σ !! nodePath = Some prefix →
  ∃ σ' views,
    ViewInfos.generateViewInfos fuel schemaNode nodePath
      selectedViewNames existingViewNames σ = Normal (tt, σ')
    ∧ ViewInfos.viewInfos σ' = ViewInfos.viewInfos σ ++ views
    ∧ (∀ view, view ∈ views →
         ∃ nd,
           ViewInfos.nodes σ !! ViewInfos.viewSourceNode view = Some nd
           ∧ ViewInfos.queryable nd = true
           ∧ ViewInfos.viewName view
             = ViewInfos.connectionName nd +:+ "_" +:+ ViewInfos.name nd
           ∧ ViewInfos.vi_connectionName view = ViewInfos.connectionName nd
           ∧ (ViewInfos.selected view = true ↔
              ViewInfos.viewName view ∈ selectedViewNames)
           ∧ (ViewInfos.isUpdate view = true ↔
              ViewInfos.viewName view ∈ existingViewNames))
    ∧ (∀ l nd kids,
         ViewInfos.subtree (ViewInfos.Node l nd kids) t →
         ViewInfos.queryable nd = true →
         ∃ view, view ∈ views ∧ ViewInfos.viewSourceNode view = l
                 ∧ ViewInfos.viewName view
                   = ViewInfos.connectionName nd +:+ "_" +:+ ViewInfos.name nd).
Proof.
  intros Ht Hh Hp.
  eexists _, _. split.
  { by apply (generateViewInfos_run selectedViewNames existingViewNames
                fuel t schemaNode nodePath prefix σ). }
  split; [reflexivity|]. split.
  - intros view (i & x & Hi & Hq & ->)%elem_of_emitted.
    exists (ViewInfos.visit_node x). simpl.
    split; [|by rewrite !bool_decide_eq_true].
    eapply preorder_in_store; [exact Ht|].
    apply list_elem_of_lookup. by exists i.
  - intros l nd kids Hsub Hq.
    destruct (subtree_visited _ _ l nd kids eq_refl Hsub prefix)
      as (b & a & anc & Hpre).
    exists (ViewInfos.view_of selectedViewNames existingViewNames l nd
              (length (ViewInfos.arrays σ) + length b)).
    split; [|done].
    apply elem_of_emitted. exists (length b), (l, nd, anc).
    split; [|done]. rewrite Hpre. by apply list_lookup_middle.
Qed.

(** C2: the view infos a call of [generateViewInfos] appends are, by
    their source nodes, exactly the queryable nodes of the tree in
    pre-order. Hence in a tree (no location occurring twice) every
    queryable node has exactly one view info and every non-queryable node
    has none, whatever its ancestors are; and the view info of a queryable
    node comes before that of any queryable node below it. *)
Theorem C2_generateViewInfos_queryable_preorder
  (selectedViewNames existingViewNames : list string) (fuel : nat)
  (t : ViewInfos.Tree) (schemaNode nodePath : loc) (prefix : list string)
  (σ : ViewInfos.Store) :
  ViewInfos.is_tree (ViewInfos.nodes σ) schemaNode t →
  ViewInfos.height t ≤ fuel →
  ViewInfos.arrays σ !! nodePath = Some prefix →
  ∃ σ' views,
    ViewInfos.generateViewInfos fuel schemaNode nodePath
      selectedViewNames existingViewNames σ = Normal (tt, σ')
    ∧ ViewInfos.viewInfos σ' = ViewInfos.viewInfos σ ++ views
    ∧ ViewInfos.viewSourceNode <$> views
      = ViewInfos.visit_loc <$>
          filter (λ v, ViewInfos.visit_queryable v = true)
                 (ViewInfos.preorder prefix t)
    ∧ (NoDup (ViewInfos.tree_locs t) →
       ∀ l nd kids,
         ViewInfos.subtree (ViewInfos.Node l nd kids) t →
         length (filter (λ view, ViewInfos.viewSourceNode view = l) views)
         = if ViewInfos.queryable nd then 1 else 0)
    ∧ (∀ lP ndP kidsP k lC ndC kidsC,
         ViewInfos.subtree (ViewInfos.Node lP ndP kidsP) t →
         k ∈ kidsP →
         ViewInfos.subtree (ViewInfos.Node lC ndC kidsC) k →
         ViewInfos.queryable ndP = true →
         ViewInfos.queryable ndC = true →
         ∃ i j viewP viewC,
           i < j
           ∧ views !! i = Some viewP ∧ ViewInfos.viewSourceNode viewP = lP
           ∧ views !! j = Some viewC ∧ ViewInfos.viewSourceNode viewC = lC).
Proof.
  intros Ht Hh Hp.
  eexists _, _. split.
  { by apply (generateViewInfos_run selectedViewNames existingViewNames
                fuel t schemaNode nodePath prefix σ). }
  split; [reflexivity|].
  split; [apply emitted_sources|]. split.
  - intros Hnodup l nd kids Hsub.
    rewrite count_sources, emitted_sources.
    destruct (subtree_visited _ _ l nd kids eq_refl Hsub prefix)
      as (b & a & anc & Hpre).
    rewrite <- (preorder_locs_prefix t prefix) in Hnodup.
    rewrite Hpre in Hnodup |- *.
    apply (count_queryable_visit b _ (l, nd, anc) Hnodup).
  - intros lP ndP kidsP k lC ndC kidsC HP Hk HC HqP HqC.
    destruct (subtree_visited _ _ lP ndP kidsP eq_refl HP prefix)
      as (b & a & anc & Hpre).
    apply list_elem_of_split in Hk as (k1 & k2 & ->).
    destruct (subtree_visited _ _ lC ndC kidsC eq_refl HC
                (anc ++ [ViewInfos.name ndP]))
      as (b' & a' & anc' & Hpre').
    rewrite flat_map_app in Hpre. cbn [flat_map] in Hpre.
    rewrite Hpre' in Hpre.
    set (mid := flat_map (ViewInfos.preorder (anc ++ [ViewInfos.name ndP]))
                  k1 ++ b').
    destruct (queryable_order b mid
                (flat_map (ViewInfos.preorder
                             (anc' ++ [ViewInfos.name ndC])) kidsC
                 ++ a'
                 ++ flat_map (ViewInfos.preorder
                                (anc ++ [ViewInfos.name ndP])) k2
                 ++ a)
                (lP, ndP, anc) (lC, ndC, anc') HqP HqC)
      as (i & j & Hij & Hi & Hj).
    assert (Hshape : ViewInfos.preorder prefix t
       = b ++ (lP, ndP, anc) :: mid ++ (lC, ndC, anc')
           :: (flat_map (ViewInfos.preorder
                           (anc' ++ [ViewInfos.name ndC])) kidsC
               ++ a'
               ++ flat_map (ViewInfos.preorder
                              (anc ++ [ViewInfos.name ndP])) k2
               ++ a)).
    { rewrite Hpre. unfold mid.
      by repeat (rewrite <- !app_assoc; cbn [app]). }
    rewrite <- Hshape, <- (emitted_sources selectedViewNames
                            existingViewNames
                            (length (ViewInfos.arrays σ))) in Hi, Hj.
    rewrite list_lookup_fmap in Hi, Hj.
    destruct (_ !! i) as [viewP|] eqn:HvP; [|done].
    destruct (_ !! j) as [viewC|] eqn:HvC; [|done].
    exists i, j, viewP, viewC.
    injection Hi as Hi. injection Hj as Hj. by repeat split.
Qed.

Lemma C9_leaves_tree_unchanged_witness :
  ∃ σ',
    ViewInfos.generateViewInfos 3 10 0 ["pg_account"] [] Samples.pg_store
      = Normal (tt, σ')
    ∧ ViewInfos.nodes σ' = ViewInfos.nodes Samples.pg_store.
Proof.
  destruct (C9_generateViewInfos_leaves_tree_unchanged
              ["pg_account"] [] 3 10 0 Samples.pg_store) as [_ Htree].
  destruct (Htree Samples.pg_tree []) as (σ' & Hrun & Hnodes & _).
  - vm_compute. repeat split.
  - vm_compute. lia.
  - reflexivity.
  - by exists σ'.
Defined.

Lemma C7_view_names_witness :
  ∃ σ' views,
    ViewInfos.generateViewInfos 3 10 0 ["pg_account"] ["pg_history"]
      Samples.pg_store = Normal (tt, σ')
    ∧ ViewInfos.viewInfos σ' = views
    ∧ ∃ view, view ∈ views ∧ ViewInfos.viewSourceNode view = 11
              ∧ ViewInfos.viewName view = "pg_account".
Proof.
  destruct (C7_generateViewInfos_view_names
              ["pg_account"] ["pg_history"] 3 Samples.pg_tree 10 0 []
              Samples.pg_store)
    as (σ' & views & Hrun & Hviews & _ & Hall).
  - vm_compute. repeat split.
  - vm_compute. lia.
  - reflexivity.
  - exists σ', views. split; [exact Hrun|]. split; [exact Hviews|].
    apply (Hall 11 Samples.account [ViewInfos.Node 13 Samples.history []]);
      [|reflexivity].
    eapply ViewInfos.subtree_below; [|apply ViewInfos.subtree_here].
    by left.
Defined.

Lemma C2_queryable_preorder_witness :
  ∃ σ' views,
    ViewInfos.generateViewInfos 3 10 0 [] [] Samples.pg_store
      = Normal (tt, σ')
    ∧ ViewInfos.viewInfos σ' = views
    ∧ ViewInfos.viewSourceNode <$> views = [11; 13].
Proof.
  destruct (C2_generateViewInfos_queryable_preorder
              [] [] 3 Samples.pg_tree 10 0 [] Samples.pg_store)
    as (σ' & views & Hrun & Hviews & Hsrc & _).
  - vm_compute. repeat split.
  - vm_compute. lia.
  - reflexivity.
  - exists σ', views. split; [exact Hrun|]. split; [exact Hviews|].
    rewrite Hsrc. reflexivity.
Defined.

(** *** The path array of a view info is the one the call goes on to extend *)

(** X15: When a call returns, the array a view info refers to as its
    [nodePath] holds the names of the node's strict ancestors followed by
    the node's own name: the name pushed for the next level lands in the
    very array the view info holds. *)
Lemma generateViewInfos_final_nodePath
  (selectedViewNames existingViewNames : list string) (fuel : nat)
  (t : ViewInfos.Tree) (schemaNode nodePath : loc) (prefix : list string)
  (σ : ViewInfos.Store) :
  ViewInfos.is_tree (ViewInfos.nodes σ) schemaNode t →
  ViewInfos.height t ≤ fuel →
  ViewInfos.arrays σ !! nodePath = Some prefix →
  ∃ σ' views,
    ViewInfos.generateViewInfos fuel schemaNode nodePath
      selectedViewNames existingViewNames σ = Normal (tt, σ')
    ∧ ViewInfos.viewInfos σ' = ViewInfos.viewInfos σ ++ views
    ∧ ∀ view, view ∈ views →
        ∃ x, x ∈ ViewInfos.preorder prefix t
             ∧ ViewInfos.visit_loc x = ViewInfos.viewSourceNode view
             ∧ ViewInfos.nodePath_contents σ' view
               = Some (ViewInfos.visit_ancestors x
                       ++ [ViewInfos.name (ViewInfos.visit_node x)]).
Proof.
  intros Ht Hh Hp.
  eexists _, _. split.
  { by apply (generateViewInfos_run selectedViewNames existingViewNames
                fuel t schemaNode nodePath prefix σ). }
  split; [reflexivity|].
  intros view (i & x & Hi & Hq & ->)%elem_of_emitted.
  exists x. split; [apply list_elem_of_lookup; by exists i|].
  split; [done|].
  unfold ViewInfos.nodePath_contents, ViewInfos.after_visits. simpl.
  rewrite lookup_app_r by lia.
  replace (length (ViewInfos.arrays σ) + i - length (ViewInfos.arrays σ))
    with i by lia.
  by rewrite list_lookup_fmap, Hi.
Qed.

(** C1 on the code: for the root [root] (not queryable) with the single
    queryable child [t1], called with an empty path, the one view info in
    the returned output is that of [t1], whose only strict ancestor is
    [root]; yet its [nodePath] reads [["root"; "t1"]], two segments ending
    in the node's own name, not [["root"]]. Called on [t1] itself with an
    empty path, the view info of [t1] has [nodePath] [["t1"]], not the
    empty path. *)
Theorem C1_nodePath_includes_own_name_after_return :
  (∃ σ' view,
     ViewInfos.generateViewInfos 2 0 0 [] [] Samples.small_store
       = Normal (tt, σ')
     ∧ ViewInfos.viewInfos σ' = [view]
     ∧ ViewInfos.viewSourceNode view = 1
     ∧ ViewInfos.viewName view = "conn_t1"
     ∧ ViewInfos.preorder [] Samples.small_tree
       = [(0, Samples.root, []); (1, Samples.t1, ["root"])]
     ∧ ViewInfos.nodePath_contents σ' view = Some ["root"; "t1"]
     ∧ ViewInfos.nodePath_contents σ' view ≠ Some ["root"])
  ∧ (∃ σ' view,
       ViewInfos.generateViewInfos 1 1 0 [] [] Samples.small_store
         = Normal (tt, σ')
       ∧ ViewInfos.viewInfos σ' = [view]
       ∧ ViewInfos.viewSourceNode view = 1
       ∧ ViewInfos.nodePath_contents σ' view = Some ["t1"]
       ∧ ViewInfos.nodePath_contents σ' view ≠ Some []).
Proof.
  split.
  - eexists _, _. split; [vm_compute; reflexivity|].
    repeat split. discriminate.
  - eexists _, _. split; [vm_compute; reflexivity|].
    repeat split. discriminate.
Qed.

(** * Further properties of the module *)

(** ** Reading back what [generateDvConnections] wrote *)

Section DvReadBack.
Import DvConnections.
Variable statuses : list VirtualizationSourceStatus.
Variable selectedConn : string.

Lemma getDvConnectionStatus_annotated (c : Connection) :
  getDvConnectionStatus (annotated statuses selectedConn c)
  = DvConnectionStatus_value (connStatus_of statuses c).
Proof.
  unfold getDvConnectionStatus, annotated. simpl.
  rewrite dv_options_status.
  by destruct (connStatus_of statuses c).
Qed.

Lemma isDvConnectionSelected_annotated (c : Connection) :
  isDvConnectionSelected (annotated statuses selectedConn c)
  = bool_decide (conn_name c = selectedConn).
Proof.
  unfold isDvConnectionSelected, annotated. simpl.
  rewrite dv_options_selected. unfold selectionState_of.
  by case_bool_decide.
Qed.

Lemma generateDvConnections_loop_null (conns : list loc) :
  ∀ (dvConns : list loc) (σ : gmap loc Connection) (l : loc),
    l ∈ conns → σ !! l = None →
    generateDvConnections_loop conns statuses selectedConn dvConns σ
    = TypeError.
Proof.
  induction conns as [|conn rest IH]; intros dvConns σ l Hin Hl.
  - by apply not_elem_of_nil in Hin.
  - simpl. destruct (σ !! conn) as [c|] eqn:Hc; [|done].
    apply elem_of_cons in Hin as [->|Hin]; [congruence|].
    apply (IH _ _ l Hin).
    rewrite lookup_insert_ne; [done|]. intros ->. congruence.
Qed.

End DvReadBack.

(** X1: After [generateDvConnections], [getDvConnectionStatus] on a listed
    connection gives ["ACTIVE"] exactly when the first status record for
    its name has both states ["ACTIVE"] and ["INACTIVE"] otherwise, and
    [isDvConnectionSelected] holds exactly when its name is the selected
    one. *)
Theorem generateDvConnections_read_back
  (conns : list loc)
  (statuses : list DvConnections.VirtualizationSourceStatus)
  (selectedConn : string) (σ : gmap loc DvConnections.Connection) :
  (∀ l, l ∈ conns → is_Some (σ !! l)) →
  ∃ σ' : gmap loc DvConnections.Connection,
    DvConnections.generateDvConnections conns statuses selectedConn σ
      = Normal (conns, σ')
    ∧ ∀ l c, l ∈ conns → σ !! l = Some c →
        ∃ c', σ' !! l = Some c'
          ∧ DvConnections.conn_name c' = DvConnections.conn_name c
          ∧ (DvConnections.getDvConnectionStatus c' = "ACTIVE" ↔
             ∃ st, List.find
                     (λ s, bool_decide (DvConnections.sourceName s
                                        = DvConnections.conn_name c))
                     statuses = Some st
                   ∧ DvConnections.vdbState st = "ACTIVE"
                   ∧ DvConnections.schemaState st = "ACTIVE")
          ∧ (DvConnections.getDvConnectionStatus c' ≠ "ACTIVE" →
             DvConnections.getDvConnectionStatus c' = "INACTIVE")
          ∧ (DvConnections.isDvConnectionSelected c' = true ↔
             DvConnections.conn_name c = selectedConn).
Proof.
  intros Hall.
  destruct (generateDvConnections_loop_spec statuses selectedConn conns [] σ
              Hall) as (σ' & Hrun & Hσ').
  exists σ'. split; [exact Hrun|].
  intros l c Hin Hc.
  exists (DvConnections.annotated statuses selectedConn c).
  split; [by rewrite Hσ', decide_True, Hc by done|].
  split; [done|].
  rewrite getDvConnectionStatus_annotated, isDvConnectionSelected_annotated.
  rewrite <- connStatus_of_active, bool_decide_eq_true.
  destruct (DvConnections.connStatus_of statuses c); simpl;
    repeat split; (done || discriminate).
Qed.

Lemma generateDvConnections_read_back_witness :
  let σ : gmap loc DvConnections.Connection :=
    {[ 3 := {| DvConnections.conn_name := "pg";
               DvConnections.options := None |} ]} in
  let statuses :=
    [ {| DvConnections.sourceName := "pg"; DvConnections.vdbState := "ACTIVE";
         DvConnections.schemaState := "FAILED" |} ] in
  ∃ (σ' : gmap loc DvConnections.Connection) c',
    DvConnections.generateDvConnections [3] statuses "pg" σ
      = Normal ([3], σ')
    ∧ σ' !! 3 = Some c'
    ∧ DvConnections.getDvConnectionStatus c' = "INACTIVE"
    ∧ DvConnections.isDvConnectionSelected c' = true.
Proof.
  intros σ statuses.
  destruct (generateDvConnections_read_back [3] statuses "pg" σ)
    as (σ' & Hrun & Hread).
  { intros l ->%list_elem_of_singleton. by eexists. }
  destruct (Hread 3 _ ltac:(by left) eq_refl)
    as (c' & Hc' & _ & Hact & Hinact & Hsel).
  exists σ', c'. split; [exact Hrun|]. split; [exact Hc'|]. split.
  - apply Hinact. intros (st & [= <-] & _ & Hs)%Hact. discriminate.
  - by apply Hsel.
Defined.

(** X2: Running [generateDvConnections] a second time with the same statuses
    and selection changes nothing: the connections keep their names, so
    the same options are written again. *)
Theorem generateDvConnections_idempotent
  (conns : list loc)
  (statuses : list DvConnections.VirtualizationSourceStatus)
  (selectedConn : string) (σ : gmap loc DvConnections.Connection) :
  (∀ l, l ∈ conns → is_Some (σ !! l)) →
  ∃ σ' : gmap loc DvConnections.Connection,
    DvConnections.generateDvConnections conns statuses selectedConn σ
      = Normal (conns, σ')
    ∧ DvConnections.generateDvConnections conns statuses selectedConn σ'
      = Normal (conns, σ').
Proof.
  intros Hall.
  destruct (generateDvConnections_loop_spec statuses selectedConn conns [] σ
              Hall) as (σ' & Hrun & Hσ').
  exists σ'. split; [exact Hrun|].
  destruct (generateDvConnections_loop_spec statuses selectedConn conns [] σ')
    as (σ'' & Hrun' & Hσ'').
  { intros l Hl. rewrite Hσ', decide_True by done.
    destruct (Hall l Hl) as [c ->]. by eexists. }
  unfold DvConnections.generateDvConnections. rewrite Hrun'.
  do 2 f_equal. apply map_eq. intros l.
  rewrite Hσ'', Hσ'. destruct (decide (l ∈ conns)); [|done].
  by destruct (σ !! l).
Qed.

Lemma generateDvConnections_idempotent_witness :
  let σ : gmap loc DvConnections.Connection :=
    {[ 3 := {| DvConnections.conn_name := "pg";
               DvConnections.options := Some {[ "old" := "1" ]} |} ]} in
  ∃ σ' : gmap loc DvConnections.Connection,
    DvConnections.generateDvConnections [3; 3] [] "pg" σ = Normal ([3; 3], σ')
    ∧ DvConnections.generateDvConnections [3; 3] [] "pg" σ'
      = Normal ([3; 3], σ').
Proof.
  intros σ. apply generateDvConnections_idempotent.
  intros l Hl. assert (l = 3) as ->.
  { apply elem_of_cons in Hl as [->|Hl]; [done|].
    by apply list_elem_of_singleton in Hl. }
  by eexists.
Defined.

(** X3: A listed connection that is null or undefined makes the call
    throw. *)
Theorem generateDvConnections_null_entry_throws
  (conns : list loc)
  (statuses : list DvConnections.VirtualizationSourceStatus)
  (selectedConn : string) (σ : gmap loc DvConnections.Connection) (l : loc) :
  l ∈ conns → σ !! l = None →
  DvConnections.generateDvConnections conns statuses selectedConn σ
  = TypeError.
Proof. apply generateDvConnections_loop_null. Qed.

Lemma generateDvConnections_null_entry_witness :
  DvConnections.generateDvConnections [3; 8] [] "pg"
    {[ 3 := {| DvConnections.conn_name := "pg";
               DvConnections.options := None |} ]}
  = TypeError.
Proof.
  apply (generateDvConnections_null_entry_throws _ _ _ _ 8).
  - right. by left.
  - reflexivity.
Defined.

(** X4: All connections that read as selected after the call carry the
    selected name; so among connections with pairwise distinct names at
    most one is selected. *)
Theorem generateDvConnections_selection_unique
  (conns : list loc)
  (statuses : list DvConnections.VirtualizationSourceStatus)
  (selectedConn : string) (σ σ' : gmap loc DvConnections.Connection)
  (l1 l2 : loc) (c1 c2 : DvConnections.Connection) :
  DvConnections.generateDvConnections conns statuses selectedConn σ
    = Normal (conns, σ') →
  l1 ∈ conns → l2 ∈ conns →
  σ' !! l1 = Some c1 → σ' !! l2 = Some c2 →
  DvConnections.isDvConnectionSelected c1 = true →
  DvConnections.isDvConnectionSelected c2 = true →
  DvConnections.conn_name c1 = selectedConn
  ∧ DvConnections.conn_name c1 = DvConnections.conn_name c2.
Proof.
  intros Hrun H1 H2 Hc1 Hc2 Hs1 Hs2.
  assert (Hall : ∀ l, l ∈ conns → is_Some (σ !! l)).
  { intros l Hl. destruct (σ !! l) eqn:E; [by eexists|].
    unfold DvConnections.generateDvConnections in Hrun.
    by rewrite (generateDvConnections_loop_null statuses selectedConn
                  conns [] σ l Hl E) in Hrun. }
  destruct (generateDvConnections_loop_spec statuses selectedConn conns [] σ
              Hall) as (σ2 & Hrun2 & Hσ2).
  unfold DvConnections.generateDvConnections in Hrun.
  rewrite Hrun2 in Hrun. injection Hrun as <-.
  rewrite Hσ2, decide_True in Hc1 by done.
  rewrite Hσ2, decide_True in Hc2 by done.
  destruct (σ !! l1) as [d1|]; [|done]. destruct (σ !! l2) as [d2|]; [|done].
  injection Hc1 as <-. injection Hc2 as <-.
  rewrite isDvConnectionSelected_annotated, bool_decide_eq_true in Hs1, Hs2.
  simpl. by rewrite Hs1, Hs2.
Qed.

Lemma generateDvConnections_selection_unique_witness :
  let first := {| DvConnections.conn_name := "pg";
                  DvConnections.options := None |} in
  let second := {| DvConnections.conn_name := "pg";
                   DvConnections.options := Some {[ "stale" := "x" ]} |} in
  let other := {| DvConnections.conn_name := "mongo";
                  DvConnections.options := None |} in
  let σ : gmap loc DvConnections.Connection :=
    <[ 3 := first ]> (<[ 4 := other ]> {[ 5 := second ]}) in
  ∃ (σ' : gmap loc DvConnections.Connection) c1 c2,
    DvConnections.generateDvConnections [3; 4; 5] [] "pg" σ
      = Normal ([3; 4; 5], σ')
    ∧ σ' !! 3 = Some c1 ∧ σ' !! 5 = Some c2
    ∧ DvConnections.isDvConnectionSelected c1 = true
    ∧ DvConnections.isDvConnectionSelected c2 = true
    ∧ DvConnections.conn_name c1 = "pg"
    ∧ DvConnections.conn_name c1 = DvConnections.conn_name c2.
Proof.
  intros first second other σ.
  destruct (DvConnections.generateDvConnections [3; 4; 5] [] "pg" σ)
    as [[conns σ']| |] eqn:Hrun; try discriminate.
  assert (Hconns : conns = [3; 4; 5]).
  { vm_compute in Hrun. by injection Hrun as <- _. }
  subst conns.
  destruct (σ' !! 3) as [c1|] eqn:H1;
    [|vm_compute in Hrun; injection Hrun as <-; discriminate].
  destruct (σ' !! 5) as [c2|] eqn:H2;
    [|vm_compute in Hrun; injection Hrun as <-; discriminate].
  assert (Hs1 : DvConnections.isDvConnectionSelected c1 = true).
  { vm_compute in Hrun. injection Hrun as <-.
    vm_compute in H1. by injection H1 as <-. }
  assert (Hs2 : DvConnections.isDvConnectionSelected c2 = true).
  { vm_compute in Hrun. injection Hrun as <-.
    vm_compute in H2. by injection H2 as <-. }
  exists σ', c1, c2.
  split; [reflexivity|]. split; [exact H1|]. split; [exact H2|].
  split; [exact Hs1|]. split; [exact Hs2|].
  apply (generateDvConnections_selection_unique [3; 4; 5] [] "pg" σ σ'
           3 5 c1 c2 Hrun); [| |exact H1|exact H2|exact Hs1|exact Hs2].
  - by left.
  - right. right. by left.
Defined.

(** ** Paths: well-formed, malformed, generated *)

Section PathFacts.
Import JsString PreviewSql.

Lemma string_app_cons (c : ascii) (a b : string) :
  String c a +:+ b = String c (a +:+ b).
Proof. done. Qed.

Lemma occurs_app (sep : ascii) (a b : string) :
  occurs sep (a +:+ b) = occurs sep a || occurs sep b.
Proof.
  induction a as [|c a IH]; [done|].
  rewrite string_app_cons. simpl. rewrite IH. by destruct (Ascii.eqb c sep).
Qed.

Lemma after_first_absent (sep : ascii) (s : string) :
  occurs sep s = false → after_first sep s = None.
Proof.
  induction s as [|c s IH]; [done|]. simpl.
  destruct (Ascii.eqb c sep); [done|]. exact IH.
Qed.

Lemma before_first_app (sep : ascii) (a b : string) :
  occurs sep a = false → before_first sep (a +:+ String sep b) = a.
Proof.
  induction a as [|c a IH].
  - intros _. change ("" +:+ String sep b) with (String sep b). simpl.
    by rewrite Ascii.eqb_refl.
  - rewrite string_app_cons. simpl.
    destruct (Ascii.eqb c sep); [done|]. intros H. by rewrite IH.
Qed.

Lemma after_first_app (sep : ascii) (a b : string) :
  occurs sep a = false → after_first sep (a +:+ String sep b) = Some b.
Proof.
  induction a as [|c a IH].
  - intros _. change ("" +:+ String sep b) with (String sep b). simpl.
    by rewrite Ascii.eqb_refl.
  - rewrite string_app_cons. simpl.
    destruct (Ascii.eqb c sep); [done|]. exact IH.
Qed.

Lemma split_app_sep (sep : ascii) (a b : string) :
  split sep (a +:+ String sep b) = split sep a ++ split sep b.
Proof.
  induction a as [|c a IH].
  - change ("" +:+ String sep b) with (String sep b). simpl.
    by rewrite Ascii.eqb_refl.
  - rewrite string_app_cons. simpl. rewrite IH.
    destruct (Ascii.eqb c sep); [done|].
    pose proof (split_not_nil sep a).
    by destruct (split sep a).
Qed.

Lemma first_segment_eq (p : string) : first_segment p = before_first "/" p.
Proof.
  unfold first_segment. pose proof (split_first "/" p) as H.
  destruct (split "/" p); simpl in *; congruence.
Qed.

Lemma last_segment_app (a b : string) :
  last_segment (a +:+ String "/" b) = last_segment b.
Proof.
  unfold last_segment. rewrite split_app_sep.
  pose proof (split_not_nil "/" b) as Hb.
  induction (split "/" a) as [|x xs IH]; [done|].
  simpl. destruct (xs ++ split "/" b) eqn:E; [|exact IH].
  apply app_eq_nil in E as [_ ?]. done.
Qed.

End PathFacts.

(** X5: For a path made of [key=value] segments whose keys and values hold
    neither [/] nor [=], the connection name is the value of the first
    segment and the node name the value of the last one. *)
Theorem names_of_well_formed_path (k v other : string) :
  JsString.occurs "/" k = false → JsString.occurs "=" k = false →
  JsString.occurs "/" v = false → JsString.occurs "=" v = false →
  PreviewSql.getConnectionName (k +:+ "=" +:+ v) = Normal (Some v)
  ∧ PreviewSql.getConnectionName (k +:+ "=" +:+ v +:+ "/" +:+ other)
    = Normal (Some v)
  ∧ PreviewSql.getNodeName (k +:+ "=" +:+ v) = Normal (Some v)
  ∧ PreviewSql.getNodeName (other +:+ "/" +:+ k +:+ "=" +:+ v)
    = Normal (Some v).
Proof.
  intros Hk1 Hk2 Hv1 Hv2.
  assert (Hseg : JsString.occurs "/" (k +:+ "=" +:+ v) = false).
  { rewrite !occurs_app, Hk1, Hv1. done. }
  assert (Hval : JsString.before_first "=" <$>
                 PreviewSql.spec_segment_value (k +:+ "=" +:+ v) = Some v).
  { unfold PreviewSql.spec_segment_value.
    change (k +:+ "=" +:+ v) with (k +:+ String "=" v).
    rewrite after_first_app by done. simpl.
    by rewrite before_first_no_sep. }
  assert (Hfirst : PreviewSql.first_segment (k +:+ "=" +:+ v)
                   = k +:+ "=" +:+ v).
  { rewrite first_segment_eq. by apply before_first_no_sep. }
  assert (Hlast : PreviewSql.last_segment (k +:+ "=" +:+ v)
                  = k +:+ "=" +:+ v).
  { unfold PreviewSql.last_segment.
    pose proof (split_first "/" (k +:+ "=" +:+ v)) as H1.
    pose proof (split_second "/" (k +:+ "=" +:+ v)) as H2.
    rewrite after_first_absent in H2 by done.
    rewrite before_first_no_sep in H1 by done.
    destruct (JsString.split "/" (k +:+ "=" +:+ v)) as [|x [|y ys]];
      simpl in *; congruence. }
  repeat split.
  - by rewrite getConnectionName_eq, Hfirst, Hval.
  - rewrite getConnectionName_eq, first_segment_eq.
    replace (k +:+ "=" +:+ v +:+ "/" +:+ other)
      with ((k +:+ "=" +:+ v) +:+ String "/" other)
      by (by rewrite !string_app_assoc).
    by rewrite before_first_app, Hval.
  - by rewrite getNodeName_eq, Hlast, Hval.
  - rewrite getNodeName_eq.
    change (other +:+ "/" +:+ k +:+ "=" +:+ v)
      with (other +:+ String "/" (k +:+ "=" +:+ v)).
    by rewrite last_segment_app, Hlast, Hval.
Qed.

Lemma names_of_well_formed_path_witness :
  PreviewSql.getConnectionName
    ("connection" +:+ "=" +:+ "pgConn" +:+ "/" +:+ "schema=public/table=account")
  = Normal (Some "pgConn")
  ∧ PreviewSql.getNodeName
      ("connection=pgConn/schema=public" +:+ "/" +:+ "table" +:+ "=" +:+
       "account")
    = Normal (Some "account").
Proof.
  split.
  - by apply (names_of_well_formed_path "connection" "pgConn"
                "schema=public/table=account").
  - by apply (names_of_well_formed_path "table" "account"
                "connection=pgConn/schema=public").
Defined.

(** X6: A non-empty first source path whose first segment holds no [=] makes
    [getPreviewSql] throw: the connection name is undefined and
    [toLowerCase] is called on it. *)
Theorem getPreviewSql_first_segment_without_equals_throws
  {caseMapping : JsString.CaseMapping} (vd : ViewDefinition) (p : string) (rest : list string) :
  sourcePaths vd = p :: rest → p ≠ "" →
  JsString.occurs "=" (PreviewSql.first_segment p) = false →
  PreviewSql.getPreviewSql vd = TypeError.
Proof.
  intros Hp Hne Hno.
  apply (getPreviewSql_undefined_connection vd p rest Hp Hne).
  rewrite getConnectionName_eq. unfold PreviewSql.spec_segment_value.
  by rewrite after_first_absent.
Qed.

Lemma getPreviewSql_first_segment_without_equals_witness :
  PreviewSql.getPreviewSql (caseMapping := JsString.ascii_case_mapping)
    {| compositions := []; isComplete := true; keng__description := "";
       projectedColumns := []; sourcePaths := ["pgConn/table=account"];
       vd_viewName := "v" |} = TypeError.
Proof.
  by apply (getPreviewSql_first_segment_without_equals_throws
              _ "pgConn/table=account" []).
Defined.

(** X7: When the first segment yields a connection name but the last segment
    holds no [=], the node name is undefined and the statement names the
    table ["undefined"]. *)
Theorem getPreviewSql_last_segment_without_equals
  {caseMapping : JsString.CaseMapping} (vd : ViewDefinition) (p : string) (rest : list string) (c : string) :
  sourcePaths vd = p :: rest → p ≠ "" →
  PreviewSql.getConnectionName p = Normal (Some c) →
  JsString.occurs "=" (PreviewSql.last_segment p) = false →
  PreviewSql.getPreviewSql vd
  = Normal ("SELECT * FROM " +:+ JsString.toLowerCase c +:+
            "schemamodel.undefined;").
Proof.
  intros Hp Hne Hc Hno.
  unfold PreviewSql.getPreviewSql. rewrite Hp. simpl.
  rewrite bool_decide_eq_false_2 by done. simpl.
  unfold PreviewSql.getPreviewTableName. rewrite Hc. simpl.
  rewrite getNodeName_eq. unfold PreviewSql.spec_segment_value.
  rewrite after_first_absent by done. simpl.
  unfold PreviewSql.SCHEMA_MODEL_SUFFIX.
  by rewrite !string_app_assoc.
Qed.

Lemma getPreviewSql_last_segment_without_equals_witness :
  PreviewSql.getPreviewSql (caseMapping := JsString.ascii_case_mapping)
    {| compositions := []; isComplete := true; keng__description := "";
       projectedColumns := []; sourcePaths := ["connection=Pg/account"];
       vd_viewName := "v" |}
  = Normal "SELECT * FROM pgschemamodel.undefined;".
Proof.
  by apply (getPreviewSql_last_segment_without_equals
              (caseMapping := JsString.ascii_case_mapping)
              _ "connection=Pg/account" [] "Pg").
Defined.

(** X8: For a view info whose connection name holds neither [/] nor [=], the
    view definition that [generateViewEditorStates] builds gets a [SELECT]
    statement from [getPreviewSql], not the empty string and not an
    exception: the table is lowercase(connection name) + ["schemamodel."]
    + the node name read from the source node's own path. *)
Theorem getPreviewSql_of_generated_definition {caseMapping : JsString.CaseMapping}
  (h : gmap loc ViewInfos.SchemaNode) (serviceVdbName : string)
  (viewInfo : ViewInfos.ViewInfo) (node : ViewInfos.SchemaNode) :
  h !! ViewInfos.viewSourceNode viewInfo = Some node →
  JsString.occurs "/" (ViewInfos.vi_connectionName viewInfo) = false →
  JsString.occurs "=" (ViewInfos.vi_connectionName viewInfo) = false →
  ∃ editorState nodeName,
    ViewInfos.generateViewEditorStates h serviceVdbName [viewInfo]
      = Normal [editorState]
    ∧ PreviewSql.getNodeName (ViewInfos.path node) = Normal nodeName
    ∧ PreviewSql.getPreviewSql (viewDefinition editorState)
      = Normal ("SELECT * FROM " +:+
                JsString.toLowerCase (ViewInfos.vi_connectionName viewInfo)
                +:+ "schemamodel" +:+ "." +:+ JsString.to_string nodeName
                +:+ ";").
Proof.
  intros Hnode Hc1 Hc2.
  set (c := ViewInfos.vi_connectionName viewInfo) in *.
  eexists _, _. split.
  { unfold ViewInfos.generateViewEditorStates. simpl. by rewrite Hnode. }
  split; [apply getNodeName_eq|].
  unfold PreviewSql.getPreviewSql. simpl. fold c.
  replace ("connection=" +:+ c +:+ "/" +:+ ViewInfos.path node)
    with (("connection=" +:+ c) +:+ String "/" (ViewInfos.path node))
    by (by rewrite string_app_assoc).
  unfold PreviewSql.getPreviewTableName.
  rewrite getConnectionName_eq, first_segment_eq.
  rewrite before_first_app by (by rewrite occurs_app, Hc1).
  unfold PreviewSql.spec_segment_value.
  change ("connection=" +:+ c) with ("connection" +:+ String "=" c).
  rewrite after_first_app by done. simpl.
  rewrite before_first_no_sep by done.
  rewrite getNodeName_eq, last_segment_app. simpl.
  unfold PreviewSql.SCHEMA_MODEL_SUFFIX.
  by rewrite !string_app_assoc.
Qed.

Lemma getPreviewSql_of_generated_definition_witness :
  ∃ editorState,
    ViewInfos.generateViewEditorStates
      (ViewInfos.nodes Samples.small_store) "vdb1"
      [ViewInfos.view_of [] [] 1 Samples.t1 2] = Normal [editorState]
    ∧ PreviewSql.getPreviewSql (caseMapping := JsString.ascii_case_mapping)
        (viewDefinition editorState)
      = Normal "SELECT * FROM connschemamodel.t1;".
Proof.
  destruct (getPreviewSql_of_generated_definition
              (caseMapping := JsString.ascii_case_mapping)
              (ViewInfos.nodes Samples.small_store) "vdb1"
              (ViewInfos.view_of [] [] 1 Samples.t1 2) Samples.t1)
    as (es & n & Hgen & Hn & Hsql); [reflexivity..|].
  exists es. split; [exact Hgen|].
  rewrite Hsql. vm_compute in Hn. by injection Hn as <-.
Defined.

(** ** Publishing details: what every result satisfies *)

(** X9: The step number never exceeds the step total, the step text is empty
    exactly at step 0, and the log URL of the result is never the empty
    string. *)
Theorem getPublishingDetails_invariants (v : Publishing.RestDataService) :
  let d := Publishing.getPublishingDetails v in
  Publishing.stepNumber d ≤ Publishing.stepTotal d
  ∧ (Publishing.stepText d = "" ↔ Publishing.stepNumber d = 0)
  ∧ Publishing.logUrl d ≠ Some ""
  ∧ (Publishing.stepNumber d = Publishing.stepTotal d ↔
     Publishing.publishedState v = "RUNNING").
Proof.
  destruct v as [st url]. unfold Publishing.getPublishingDetails. simpl.
  destruct url as [[|c u]|]; simpl;
    repeat case_bool_decide; simpl; subst;
    repeat split; try done; try lia; try discriminate.
Qed.

(** ** Editor states: identifiers, failure, concatenation *)

Section EditorStateMore.
Import ViewInfos.
Variable h : gmap loc SchemaNode.
Variable serviceVdbName : string.

Lemma generateViewEditorStates_loop_acc (vis : list ViewInfo) :
  ∀ acc,
    generateViewEditorStates_loop h serviceVdbName vis acc
    = bind_completion (generateViewEditorStates_loop h serviceVdbName vis [])
        (λ out, Normal (acc ++ out)).
Proof.
  induction vis as [|v vis IH]; intros acc; simpl.
  - by rewrite app_nil_r.
  - destruct (h !! viewSourceNode v) as [nd|]; [|done].
    rewrite IH. symmetry. rewrite IH.
    destruct (generateViewEditorStates_loop h serviceVdbName vis []);
      simpl; [|done..].
    by rewrite <- app_assoc.
Qed.

Lemma generateViewEditorStates_loop_null (vis : list ViewInfo) :
  ∀ acc vi, vi ∈ vis → h !! viewSourceNode vi = None →
    generateViewEditorStates_loop h serviceVdbName vis acc = TypeError.
Proof.
  induction vis as [|v vis IH]; intros acc vi Hin Hnull.
  - by apply not_elem_of_nil in Hin.
  - simpl. apply elem_of_cons in Hin as [->|Hin].
    + by rewrite Hnull.
    + destruct (h !! viewSourceNode v); [|done]. by eapply IH.
Qed.

End EditorStateMore.

(** X10: Within one call, editor states with the same identifier come from
    view infos with the same view name: distinct view names give distinct
    identifiers. *)
Theorem generateViewEditorStates_ids_injective
  (h : gmap loc ViewInfos.SchemaNode) (serviceVdbName : string)
  (viewInfos : list ViewInfos.ViewInfo) (editorStates : list ViewEditorState)
  (i j : nat) (vi vj : ViewInfos.ViewInfo) (si sj : ViewEditorState) :
  ViewInfos.generateViewEditorStates h serviceVdbName viewInfos
    = Normal editorStates →
  viewInfos !! i = Some vi → viewInfos !! j = Some vj →
  editorStates !! i = Some si → editorStates !! j = Some sj →
  es_id si = es_id sj →
  ViewInfos.viewName vi = ViewInfos.viewName vj.
Proof.
  intros Hrun Hvi Hvj Hsi Hsj Hid.
  assert (Hall : ∀ v, v ∈ viewInfos →
                      is_Some (h !! ViewInfos.viewSourceNode v)).
  { intros v Hv. destruct (h !! ViewInfos.viewSourceNode v) eqn:E;
      [by eexists|].
    unfold ViewInfos.generateViewEditorStates in Hrun.
    by rewrite (generateViewEditorStates_loop_null h serviceVdbName
                  viewInfos [] v Hv E) in Hrun. }
  destruct (generateViewEditorStates_loop_spec h serviceVdbName viewInfos []
              Hall) as (out & Hrun' & _ & Hout).
  unfold ViewInfos.generateViewEditorStates in Hrun.
  rewrite Hrun' in Hrun. injection Hrun as <-.
  destruct (Hout i vi Hvi) as (ni & _ & Hi).
  destruct (Hout j vj Hvj) as (nj & _ & Hj).
  simpl in Hsi, Hsj. rewrite Hi in Hsi. rewrite Hj in Hsj.
  injection Hsi as <-. injection Hsj as <-. simpl in Hid.
  apply (inj (String.app serviceVdbName)) in Hid.
  by apply (inj (String.app ".")) in Hid.
Qed.

Lemma generateViewEditorStates_ids_injective_witness :
  ViewInfos.viewName (ViewInfos.view_of [] [] 1 Samples.t1 2)
  = ViewInfos.viewName (ViewInfos.view_of ["conn_t1"] [] 1 Samples.t1 5).
Proof.
  eapply (generateViewEditorStates_ids_injective
            (ViewInfos.nodes Samples.small_store) "vdb1"
            [ViewInfos.view_of [] [] 1 Samples.t1 2;
             ViewInfos.view_of ["conn_t1"] [] 1 Samples.t1 5]
            _ 0 1); reflexivity.
Defined.

(** X11: A view info whose source node is null or undefined makes
    [generateViewEditorStates] throw. *)
Theorem generateViewEditorStates_null_source_throws
  (h : gmap loc ViewInfos.SchemaNode) (serviceVdbName : string)
  (viewInfos : list ViewInfos.ViewInfo) (viewInfo : ViewInfos.ViewInfo) :
  viewInfo ∈ viewInfos →
  h !! ViewInfos.viewSourceNode viewInfo = None →
  ViewInfos.generateViewEditorStates h serviceVdbName viewInfos = TypeError.
Proof. apply generateViewEditorStates_loop_null. Qed.

Lemma generateViewEditorStates_null_source_witness :
  ViewInfos.generateViewEditorStates (ViewInfos.nodes Samples.small_store)
    "vdb1"
    [ViewInfos.view_of [] [] 1 Samples.t1 2;
     ViewInfos.view_of [] [] 7 Samples.t1 3] = TypeError.
Proof.
  apply (generateViewEditorStates_null_source_throws _ _ _
           (ViewInfos.view_of [] [] 7 Samples.t1 3)).
  - right. by left.
  - reflexivity.
Defined.

(** X12: The editor states of a concatenation are the editor states of the
    first part followed by those of the second; a failure in the first
    part is the failure of the whole. *)
Theorem generateViewEditorStates_app
  (h : gmap loc ViewInfos.SchemaNode) (serviceVdbName : string)
  (vis1 vis2 : list ViewInfos.ViewInfo) :
  ViewInfos.generateViewEditorStates h serviceVdbName (vis1 ++ vis2)
  = bind_completion
      (ViewInfos.generateViewEditorStates h serviceVdbName vis1)
      (λ out1,
         bind_completion
           (ViewInfos.generateViewEditorStates h serviceVdbName vis2)
           (λ out2, Normal (out1 ++ out2))).
Proof.
  unfold ViewInfos.generateViewEditorStates.
  generalize (@nil ViewEditorState) at 1 2 as acc.
  induction vis1 as [|v vis1 IH]; intros acc; simpl.
  - apply generateViewEditorStates_loop_acc.
  - destruct (h !! ViewInfos.viewSourceNode v); [|done]. apply IH.
Qed.

Lemma getPublishingDetails_invariants_witness :
  Publishing.stepNumber
    (Publishing.getPublishingDetails
       {| Publishing.publishedState := "RUNNING";
          Publishing.publishLogUrl := Some "" |}) = 4
  ∧ Publishing.logUrl
      (Publishing.getPublishingDetails
         {| Publishing.publishedState := "RUNNING";
            Publishing.publishLogUrl := Some "" |}) ≠ Some "".
Proof.
  pose proof (getPublishingDetails_invariants
    {| Publishing.publishedState := "RUNNING";
       Publishing.publishLogUrl := Some "" |}) as (_ & _ & Hurl & Hrun).
  split; [by apply Hrun | exact Hurl].
Defined.

(** ** Traversal: arrays, names, flags *)

Section EmittedMore.
Import ViewInfos.
Variables selectedViewNames existingViewNames : list string.

Lemma emitted_paths_fresh base (vs : list visit) :
  NoDup (nodePath <$> emitted_from selectedViewNames existingViewNames base vs)
  ∧ ∀ r, r ∈ nodePath <$>
               emitted_from selectedViewNames existingViewNames base vs →
         base ≤ r < base + length vs.
Proof.
  revert base. induction vs as [|v vs IH]; intros base.
  - split; [constructor|]. by intros r ?%not_elem_of_nil.
  - destruct (IH (S base)) as [Hnd Hrange]. simpl.
    destruct (visit_queryable v); simpl.
    + split.
      * constructor; [|done]. intros Hin%Hrange. lia.
      * intros r [->|Hin%Hrange]%elem_of_cons; lia.
    + split; [done|]. intros r Hin%Hrange. lia.
Qed.

Lemma emitted_pointwise base (vs : list visit) :
  Forall2 (λ view x, ∃ r, view = view_of selectedViewNames existingViewNames
                                          (visit_loc x) (visit_node x) r)
    (emitted_from selectedViewNames existingViewNames base vs)
    (filter (λ v, visit_queryable v = true) vs).
Proof.
  revert base. induction vs as [|v vs IH]; intros base; [constructor|].
  simpl. rewrite filter_cons. destruct (visit_queryable v) eqn:Hq.
  - rewrite decide_True by done. constructor; [by eexists|apply IH].
  - rewrite decide_False by done. apply IH.
Qed.

Lemma emitted_names base (vs : list visit) :
  viewName <$> emitted_from selectedViewNames existingViewNames base vs
  = (λ x, connectionName (visit_node x) +:+ "_" +:+ name (visit_node x))
    <$> filter (λ v, visit_queryable v = true) vs.
Proof.
  revert base. induction vs as [|v vs IH]; intros base; [done|].
  simpl. rewrite filter_cons. destruct (visit_queryable v) eqn:Hq.
  - rewrite decide_True by done. simpl. by rewrite IH.
  - rewrite decide_False by done. simpl. by rewrite IH.
Qed.

End EmittedMore.

Lemma emitted_identity (sel ex sel' ex' : list string) base
  (vs : list ViewInfos.visit) :
  ViewInfos.view_identity <$> ViewInfos.emitted_from sel ex base vs
  = ViewInfos.view_identity <$> ViewInfos.emitted_from sel' ex' base vs.
Proof.
  revert base. induction vs as [|v vs IH]; intros base; [done|].
  simpl. rewrite !fmap_app, IH. by destruct (ViewInfos.visit_queryable v).
Qed.

(** X13: A call never touches the arrays that existed before it, the caller's
    path array among them: it allocates one new array per visited node
    and writes to those only. *)
Theorem generateViewInfos_keeps_existing_arrays
  (selectedViewNames existingViewNames : list string) (fuel : nat)
  (t : ViewInfos.Tree) (schemaNode nodePath : loc) (prefix : list string)
  (σ : ViewInfos.Store) :
  ViewInfos.is_tree (ViewInfos.nodes σ) schemaNode t →
  ViewInfos.height t ≤ fuel →
  ViewInfos.arrays σ !! nodePath = Some prefix →
  ∃ σ',
    ViewInfos.generateViewInfos fuel schemaNode nodePath
      selectedViewNames existingViewNames σ = Normal (tt, σ')
    ∧ ViewInfos.arrays σ' !! nodePath = Some prefix
    ∧ (∀ r a, ViewInfos.arrays σ !! r = Some a →
              ViewInfos.arrays σ' !! r = Some a)
    ∧ length (ViewInfos.arrays σ')
      = length (ViewInfos.arrays σ) + length (ViewInfos.tree_locs t).
Proof.
  intros Ht Hh Hp.
  eexists. split.
  { by apply (generateViewInfos_run selectedViewNames existingViewNames
                fuel t schemaNode nodePath prefix σ). }
  simpl. split; [by apply lookup_app_l_Some|].
  split; [intros r a Hr; by apply lookup_app_l_Some|].
  rewrite length_app, length_fmap.
  by rewrite <- (preorder_locs_prefix t prefix), length_fmap.
Qed.

Lemma generateViewInfos_keeps_existing_arrays_witness :
  ∃ σ',
    ViewInfos.generateViewInfos 3 10 0 [] [] Samples.pg_store
      = Normal (tt, σ')
    ∧ ViewInfos.arrays σ' !! 0 = Some []
    ∧ length (ViewInfos.arrays σ') = 5.
Proof.
  destruct (generateViewInfos_keeps_existing_arrays
              [] [] 3 Samples.pg_tree 10 0 [] Samples.pg_store)
    as (σ' & Hrun & Hp & _ & Hlen).
  - vm_compute. repeat split.
  - vm_compute. lia.
  - reflexivity.
  - by exists σ'.
Defined.

(** X14: Every emitted view info has a path array of its own: no two view
    infos share one, and none shares one with an array that existed
    before the call. *)
Theorem generateViewInfos_path_arrays_distinct
  (selectedViewNames existingViewNames : list string) (fuel : nat)
  (t : ViewInfos.Tree) (schemaNode nodePath : loc) (prefix : list string)
  (σ : ViewInfos.Store) :
  ViewInfos.is_tree (ViewInfos.nodes σ) schemaNode t →
  ViewInfos.height t ≤ fuel →
  ViewInfos.arrays σ !! nodePath = Some prefix →
  ∃ σ' views,
    ViewInfos.generateViewInfos fuel schemaNode nodePath
      selectedViewNames existingViewNames σ = Normal (tt, σ')
    ∧ ViewInfos.viewInfos σ' = ViewInfos.viewInfos σ ++ views
    ∧ NoDup (ViewInfos.nodePath <$> views)
    ∧ ∀ view, view ∈ views →
        length (ViewInfos.arrays σ) ≤ ViewInfos.nodePath view
        ∧ ViewInfos.nodePath view < length (ViewInfos.arrays σ')
        ∧ ViewInfos.nodePath view ≠ nodePath.
Proof.
  intros Ht Hh Hp.
  eexists _, _. split.
  { by apply (generateViewInfos_run selectedViewNames existingViewNames
                fuel t schemaNode nodePath prefix σ). }
  split; [reflexivity|].
  destruct (emitted_paths_fresh selectedViewNames existingViewNames
              (length (ViewInfos.arrays σ)) (ViewInfos.preorder prefix t))
    as [Hnd Hrange].
  split; [exact Hnd|].
  intros view Hview.
  assert (Hin : ViewInfos.nodePath view ∈ ViewInfos.nodePath <$>
            ViewInfos.emitted_from selectedViewNames existingViewNames
              (length (ViewInfos.arrays σ)) (ViewInfos.preorder prefix t)).
  { apply list_elem_of_fmap. by exists view. }
  apply Hrange in Hin. simpl. rewrite length_app, length_fmap.
  apply lookup_lt_Some in Hp. lia.
Qed.

Lemma generateViewInfos_path_arrays_distinct_witness :
  ∃ σ' views,
    ViewInfos.generateViewInfos 3 10 0 [] [] Samples.pg_store
      = Normal (tt, σ')
    ∧ ViewInfos.viewInfos σ' = views
    ∧ NoDup (ViewInfos.nodePath <$> views).
Proof.
  destruct (generateViewInfos_path_arrays_distinct
              [] [] 3 Samples.pg_tree 10 0 [] Samples.pg_store)
    as (σ' & views & Hrun & Hviews & Hnd & _).
  - vm_compute. repeat split.
  - vm_compute. lia.
  - reflexivity.
  - by exists σ', views.
Defined.

Lemma generateViewInfos_final_nodePath_witness :
  ∃ σ' views,
    ViewInfos.generateViewInfos 3 10 0 [] [] Samples.pg_store
      = Normal (tt, σ')
    ∧ ViewInfos.viewInfos σ' = views
    ∧ (ViewInfos.nodePath_contents σ' <$> views)
      = [Some ["public"; "account"]; Some ["public"; "account"; "history"]].
Proof.
  destruct (generateViewInfos_final_nodePath
              [] [] 3 Samples.pg_tree 10 0 [] Samples.pg_store)
    as (σ' & views & Hrun & Hviews & _).
  - vm_compute. repeat split.
  - vm_compute. lia.
  - reflexivity.
  - exists σ', views. split; [exact Hrun|]. split; [exact Hviews|].
    vm_compute in Hrun. injection Hrun as <-.
    vm_compute in Hviews. by subst views.
Defined.

(** X16: The view names of the emitted view infos are, in order, connection
    name + ["_"] + node name of the queryable nodes in pre-order: two
    queryable nodes with equal connection name and node name give two
    view infos with the same view name, nothing is merged. *)
Theorem generateViewInfos_view_name_sequence
  (selectedViewNames existingViewNames : list string) (fuel : nat)
  (t : ViewInfos.Tree) (schemaNode nodePath : loc) (prefix : list string)
  (σ : ViewInfos.Store) :
  ViewInfos.is_tree (ViewInfos.nodes σ) schemaNode t →
  ViewInfos.height t ≤ fuel →
  ViewInfos.arrays σ !! nodePath = Some prefix →
  ∃ σ' views,
    ViewInfos.generateViewInfos fuel schemaNode nodePath
      selectedViewNames existingViewNames σ = Normal (tt, σ')
    ∧ ViewInfos.viewInfos σ' = ViewInfos.viewInfos σ ++ views
    ∧ ViewInfos.viewName <$> views
      = (λ x, ViewInfos.connectionName (ViewInfos.visit_node x) +:+ "_" +:+
              ViewInfos.name (ViewInfos.visit_node x))
        <$> filter (λ v, ViewInfos.visit_queryable v = true)
                   (ViewInfos.preorder prefix t)
    ∧ length views
      = length (filter (λ v, ViewInfos.visit_queryable v = true)
                       (ViewInfos.preorder prefix t)).
Proof.
  intros Ht Hh Hp.
  eexists _, _. split.
  { by apply (generateViewInfos_run selectedViewNames existingViewNames
                fuel t schemaNode nodePath prefix σ). }
  split; [reflexivity|].
  split; [apply emitted_names|].
  eapply Forall2_length, emitted_pointwise.
Qed.

Lemma generateViewInfos_view_name_sequence_witness :
  let twin : ViewInfos.SchemaNode :=
    {| ViewInfos.name := "t1"; ViewInfos.connectionName := "conn";
       ViewInfos.path := "p"; ViewInfos.queryable := true;
       ViewInfos.children := [1] |} in
  let σ : ViewInfos.Store :=
    {| ViewInfos.nodes := <[0 := twin]> (<[1 := Samples.t1]> ∅);
       ViewInfos.arrays := [[]]; ViewInfos.viewInfos := [] |} in
  ∃ σ' views,
    ViewInfos.generateViewInfos 2 0 0 [] [] σ = Normal (tt, σ')
    ∧ ViewInfos.viewInfos σ' = views
    ∧ ViewInfos.viewName <$> views = ["conn_t1"; "conn_t1"].
Proof.
  intros twin σ.
  destruct (generateViewInfos_view_name_sequence [] [] 2
              (ViewInfos.Node 0 twin [ViewInfos.Node 1 Samples.t1 []])
              0 0 [] σ)
    as (σ' & views & Hrun & Hviews & Hnames & _).
  - vm_compute. repeat split.
  - vm_compute. lia.
  - reflexivity.
  - exists σ', views. split; [exact Hrun|]. split; [exact Hviews|].
    rewrite Hnames. reflexivity.
Defined.

(** X17: The selected and existing names decide the two flags and nothing
    else: with other name lists the call allocates the same arrays with
    the same contents and emits view infos with the same connection
    names, path arrays, view names and source nodes. *)
Theorem generateViewInfos_names_only_set_flags
  (sel ex sel' ex' : list string) (fuel : nat)
  (t : ViewInfos.Tree) (schemaNode nodePath : loc) (prefix : list string)
  (σ : ViewInfos.Store) :
  ViewInfos.is_tree (ViewInfos.nodes σ) schemaNode t →
  ViewInfos.height t ≤ fuel →
  ViewInfos.arrays σ !! nodePath = Some prefix →
  ∃ σ1 σ2,
    ViewInfos.generateViewInfos fuel schemaNode nodePath sel ex σ
      = Normal (tt, σ1)
    ∧ ViewInfos.generateViewInfos fuel schemaNode nodePath sel' ex' σ
      = Normal (tt, σ2)
    ∧ ViewInfos.arrays σ1 = ViewInfos.arrays σ2
    ∧ ViewInfos.nodes σ1 = ViewInfos.nodes σ2
    ∧ ViewInfos.view_identity <$> ViewInfos.viewInfos σ1
      = ViewInfos.view_identity <$> ViewInfos.viewInfos σ2.
Proof.
  intros Ht Hh Hp.
  eexists _, _.
  split; [by apply (generateViewInfos_run sel ex fuel t schemaNode nodePath
                      prefix σ)|].
  split; [by apply (generateViewInfos_run sel' ex' fuel t schemaNode nodePath
                      prefix σ)|].
  simpl. split; [done|]. split; [done|].
  rewrite !fmap_app. f_equal. apply emitted_identity.
Qed.

Lemma generateViewInfos_names_only_set_flags_witness :
  ∃ σ1 σ2,
    ViewInfos.generateViewInfos 3 10 0 ["pg_account"] [] Samples.pg_store
      = Normal (tt, σ1)
    ∧ ViewInfos.generateViewInfos 3 10 0 [] ["pg_history"] Samples.pg_store
      = Normal (tt, σ2)
    ∧ ViewInfos.arrays σ1 = ViewInfos.arrays σ2.
Proof.
  destruct (generateViewInfos_names_only_set_flags
              ["pg_account"] [] [] ["pg_history"] 3 Samples.pg_tree 10 0 []
              Samples.pg_store)
    as (σ1 & σ2 & H1 & H2 & Harr & _).
  - vm_compute. repeat split.
  - vm_compute. lia.
  - reflexivity.
  - by exists σ1, σ2.
Defined.

(** ** From a schema tree to editor states *)

Section Pipeline.
Import ViewInfos.
Variable h : gmap loc SchemaNode.
Variable serviceVdbName : string.
Variables selectedViewNames existingViewNames : list string.

Lemma editor_states_of_visits (views : list ViewInfo) (xs : list visit) :
  Forall2 (λ view x, ∃ r, view = view_of selectedViewNames existingViewNames
                                          (visit_loc x) (visit_node x) r)
          views xs →
  (∀ x, x ∈ xs → h !! visit_loc x = Some (visit_node x)) →
  generateViewEditorStates h serviceVdbName views
  = Normal ((λ x, editorState_of serviceVdbName
                    (view_of [] [] (visit_loc x) (visit_node x) 0)
                    (visit_node x)) <$> xs).
Proof.
  unfold generateViewEditorStates.
  induction 1 as [|view x views xs [r ->] _ IH]; intros Hstore; [done|].
  simpl. rewrite (Hstore x) by by left.
  rewrite generateViewEditorStates_loop_acc, IH; [done|].
  intros y Hy. apply Hstore. by right.
Qed.

End Pipeline.

(** X18: Feeding the view infos of a call of [generateViewInfos] to
    [generateViewEditorStates] never throws and gives one editor state
    per queryable node, in pre-order: its identifier is the
    virtualization name + ["."] + connection name + ["_"] + node name and
    its one source path is ["connection="] + connection name + ["/"] +
    the node's own path. *)
Theorem generateViewEditorStates_of_generateViewInfos
  (serviceVdbName : string)
  (selectedViewNames existingViewNames : list string) (fuel : nat)
  (t : ViewInfos.Tree) (schemaNode nodePath : loc) (prefix : list string)
  (σ : ViewInfos.Store) :
  ViewInfos.is_tree (ViewInfos.nodes σ) schemaNode t →
  ViewInfos.height t ≤ fuel →
  ViewInfos.arrays σ !! nodePath = Some prefix →
  ∃ σ' views editorStates,
    ViewInfos.generateViewInfos fuel schemaNode nodePath
      selectedViewNames existingViewNames σ = Normal (tt, σ')
    ∧ ViewInfos.viewInfos σ' = ViewInfos.viewInfos σ ++ views
    ∧ ViewInfos.generateViewEditorStates (ViewInfos.nodes σ')
        serviceVdbName views = Normal editorStates
    ∧ es_id <$> editorStates
      = (λ x, serviceVdbName +:+ "." +:+
              ViewInfos.connectionName (ViewInfos.visit_node x) +:+ "_" +:+
              ViewInfos.name (ViewInfos.visit_node x))
        <$> filter (λ v, ViewInfos.visit_queryable v = true)
                   (ViewInfos.preorder prefix t)
    ∧ sourcePaths ∘ viewDefinition <$> editorStates
      = (λ x, ["connection=" +:+
               ViewInfos.connectionName (ViewInfos.visit_node x) +:+ "/" +:+
               ViewInfos.path (ViewInfos.visit_node x)])
        <$> filter (λ v, ViewInfos.visit_queryable v = true)
                   (ViewInfos.preorder prefix t).
Proof.
  intros Ht Hh Hp.
  eexists _, _, _. split.
  { by apply (generateViewInfos_run selectedViewNames existingViewNames
                fuel t schemaNode nodePath prefix σ). }
  split; [reflexivity|]. split.
  { simpl. eapply editor_states_of_visits; [apply emitted_pointwise|].
    intros x [_ Hx]%list_elem_of_filter.
    by eapply preorder_in_store. }
  split; by rewrite <- list_fmap_compose.
Qed.

Lemma generateViewEditorStates_of_generateViewInfos_witness :
  ∃ σ' editorStates,
    ViewInfos.generateViewInfos 3 10 0 [] [] Samples.pg_store
      = Normal (tt, σ')
    ∧ ViewInfos.generateViewEditorStates (ViewInfos.nodes σ') "vdb"
        (ViewInfos.viewInfos σ') = Normal editorStates
    ∧ es_id <$> editorStates = ["vdb.pg_account"; "vdb.pg_history"].
Proof.
  destruct (generateViewEditorStates_of_generateViewInfos "vdb"
              [] [] 3 Samples.pg_tree 10 0 [] Samples.pg_store)
    as (σ' & views & states & Hrun & Hviews & Hgen & Hids & _).
  - vm_compute. repeat split.
  - vm_compute. lia.
  - reflexivity.
  - exists σ', states. split; [exact Hrun|].
    rewrite Hviews. split; [exact Hgen|]. rewrite Hids. reflexivity.
Defined.

(** ** Order of the inputs of [generateDvConnections] *)

Section DvOrder.
Import DvConnections.

Lemma find_source_unique (statuses : list VirtualizationSourceStatus)
  (st : VirtualizationSourceStatus) (n : string) :
  NoDup (sourceName <$> statuses) → st ∈ statuses → sourceName st = n →
  List.find (λ s, bool_decide (sourceName s = n)) statuses = Some st.
Proof.
  induction statuses as [|s statuses IH]; intros Hnd Hin Hn.
  - by apply not_elem_of_nil in Hin.
  - rewrite fmap_cons in Hnd. apply NoDup_cons in Hnd as [Hs Hnd].
    simpl. case_bool_decide as Hsn.
    + apply elem_of_cons in Hin as [->|Hin]; [done|].
      exfalso. apply Hs, list_elem_of_fmap. exists st. split; congruence.
    + apply elem_of_cons in Hin as [->|Hin]; [done|]. by apply IH.
Qed.

Lemma find_source_none (statuses : list VirtualizationSourceStatus)
  (n : string) :
  List.find (λ s, bool_decide (sourceName s = n)) statuses = None →
  ∀ st, st ∈ statuses → sourceName st ≠ n.
Proof.
  induction statuses as [|s statuses IH]; intros Hfind st Hin.
  - by apply not_elem_of_nil in Hin.
  - simpl in Hfind. case_bool_decide as Hsn; [done|].
    apply elem_of_cons in Hin as [->|Hin]; [done|]. by apply IH.
Qed.

Lemma find_source_elem (statuses : list VirtualizationSourceStatus)
  (st : VirtualizationSourceStatus) (n : string) :
  List.find (λ s, bool_decide (sourceName s = n)) statuses = Some st →
  st ∈ statuses ∧ sourceName st = n.
Proof.
  induction statuses as [|s statuses IH]; [done|]. simpl.
  case_bool_decide as Hsn.
  - intros [= ->]. split; [by left|done].
  - intros [Hin Hn]%IH. split; [by right|done].
Qed.

Lemma connStatus_of_permutation
  (statuses statuses' : list VirtualizationSourceStatus) (c : Connection) :
  statuses ≡ₚ statuses' → NoDup (sourceName <$> statuses) →
  connStatus_of statuses c = connStatus_of statuses' c.
Proof.
  intros Hperm Hnd. unfold connStatus_of.
  assert (Hnd' : NoDup (sourceName <$> statuses')) by by rewrite <- Hperm.
  destruct (List.find _ statuses) as [st|] eqn:Hfind.
  - apply find_source_elem in Hfind as [Hin Hn].
    rewrite Hperm in Hin.
    by rewrite (find_source_unique statuses' st _ Hnd' Hin Hn).
  - destruct (List.find _ statuses') as [st'|] eqn:Hfind'; [|done].
    apply find_source_elem in Hfind' as [Hin Hn].
    rewrite <- Hperm in Hin.
    by destruct (find_source_none _ _ Hfind st' Hin).
Qed.

End DvOrder.

(** X19: When the status records have pairwise distinct source names, their
    order does not matter: any reordering gives the same annotated
    connections. *)
Theorem generateDvConnections_status_order_irrelevant
  (conns : list loc)
  (statuses statuses' : list DvConnections.VirtualizationSourceStatus)
  (selectedConn : string) (σ : gmap loc DvConnections.Connection) :
  statuses ≡ₚ statuses' →
  NoDup (DvConnections.sourceName <$> statuses) →
  DvConnections.generateDvConnections conns statuses selectedConn σ
  = DvConnections.generateDvConnections conns statuses' selectedConn σ.
Proof.
  intros Hperm Hnd. unfold DvConnections.generateDvConnections.
  generalize (@nil loc) as acc. revert σ.
  induction conns as [|conn rest IH]; intros σ acc; [done|].
  simpl. destruct (σ !! conn) as [c|]; [|done].
  rewrite (connStatus_of_permutation statuses statuses' c Hperm Hnd).
  apply IH.
Qed.

Lemma generateDvConnections_status_order_witness :
  let a := {| DvConnections.sourceName := "pg";
              DvConnections.vdbState := "ACTIVE";
              DvConnections.schemaState := "ACTIVE" |} in
  let b := {| DvConnections.sourceName := "mongo";
              DvConnections.vdbState := "FAILED";
              DvConnections.schemaState := "ACTIVE" |} in
  let σ : gmap loc DvConnections.Connection :=
    {[ 3 := {| DvConnections.conn_name := "pg";
               DvConnections.options := None |} ]} in
  DvConnections.generateDvConnections [3] [a; b] "pg" σ
  = DvConnections.generateDvConnections [3] [b; a] "pg" σ.
Proof.
  intros a b σ.
  apply generateDvConnections_status_order_irrelevant.
  - apply Permutation_swap.
  - by apply (bool_decide_unpack _).
Defined.

(** X20: The annotated store depends on which connections are listed, not on
    their order or on repetitions in the list. *)
Theorem generateDvConnections_conns_order_irrelevant
  (conns conns' : list loc)
  (statuses : list DvConnections.VirtualizationSourceStatus)
  (selectedConn : string) (σ : gmap loc DvConnections.Connection) :
  (∀ l, l ∈ conns ↔ l ∈ conns') →
  (∀ l, l ∈ conns → is_Some (σ !! l)) →
  ∃ σ' : gmap loc DvConnections.Connection,
    DvConnections.generateDvConnections conns statuses selectedConn σ
      = Normal (conns, σ')
    ∧ DvConnections.generateDvConnections conns' statuses selectedConn σ
      = Normal (conns', σ').
Proof.
  intros Hsame Hall.
  destruct (generateDvConnections_loop_spec statuses selectedConn conns [] σ
              Hall) as (σ1 & Hrun1 & Hσ1).
  destruct (generateDvConnections_loop_spec statuses selectedConn conns' [] σ)
    as (σ2 & Hrun2 & Hσ2).
  { intros l Hl. apply Hall. by apply Hsame. }
  exists σ1. split; [exact Hrun1|].
  unfold DvConnections.generateDvConnections. rewrite Hrun2.
  do 2 f_equal. apply map_eq. intros l. rewrite Hσ1, Hσ2.
  destruct (decide (l ∈ conns)) as [Hin|Hnin].
  - by rewrite decide_True by by apply Hsame.
  - rewrite decide_False; [done|]. intros Hin'. by apply Hnin, Hsame.
Qed.

Lemma generateDvConnections_conns_order_witness :
  let σ : gmap loc DvConnections.Connection :=
    <[ 3 := {| DvConnections.conn_name := "pg";
               DvConnections.options := None |} ]>
    {[ 4 := {| DvConnections.conn_name := "mongo";
               DvConnections.options := None |} ]} in
  ∃ σ' : gmap loc DvConnections.Connection,
    DvConnections.generateDvConnections [3; 4] [] "pg" σ
      = Normal ([3; 4], σ')
    ∧ DvConnections.generateDvConnections [4; 3; 4] [] "pg" σ
      = Normal ([4; 3; 4], σ').
Proof.
  intros σ. apply generateDvConnections_conns_order_irrelevant.
  - intros l. rewrite !elem_of_cons, !elem_of_nil. tauto.
  - intros l. rewrite !elem_of_cons, elem_of_nil.
    intros [->|[->|[]]]; by eexists.
Defined.
